(** * pico_reaction_game: the listener thread and the game loop

    A shallow embedding of [src/pico_reaction_game.py].

    - Timestamps and the reaction window are Python floats, that is IEEE 754
      binary64 values.  They are the [spec_float] of the standard library
      with a 53-bit mantissa and [emax = 1024]: the subtraction rounds to
      nearest, ties to even, and the comparisons [>] and [<=] are both
      false when an operand is NaN.  A subtraction and these two
      comparisons are all the program does with them.
    - The integers [score], [lives] and [round_no] are unbounded ([Z]).
    - Directions are the strings the program uses.
    - One pass of the [while True] loop of [run_game] is the function
      [frame]; what the pass gets from outside (the clock, the random draw,
      whether the drawing calls return or raise [curses.error], the events
      handed out by the queue, the key returned by [getch]) is given to it
      as arguments.  Whether a drawing call raises depends on the size of
      the terminal and on the curses library; the text drawn changes no
      variable.  Signals ([KeyboardInterrupt]) are outside the model. *)

From Stdlib Require Import ZArith NArith QArith List String Ascii Bool Lia.
From Stdlib Require Import Strings.Byte DecimalString.
From Stdlib Require Import Floats.SpecFloat.
From Equations Require Import Equations.
Import ListNotations.

Open Scope string_scope.
Open Scope Z_scope.

(** ** Python helpers *)

(** [str(n)] for an integer. *)
Definition str (n : Z) : string := NilZero.string_of_int (Z.to_int n).

(** [random.choice(seq)]: the element at a drawn index below [len(seq)]. *)
Definition random_choice (draw : nat) (seq : list string) : string :=
  nth (draw mod List.length seq) seq "".

(** *** Floats *)

Definition prec : Z := 53.
Definition emax : Z := 1024.

(** A Python [float]. *)
Definition float : Type := spec_float.

(** [a - b] *)
Definition fsub (a b : float) : float := SFsub prec emax a b.

(** [a > b] *)
Definition fgt (a b : float) : bool := SFltb b a.

(** [a <= b] *)
Definition fle (a b : float) : bool := SFleb a b.

(** [0.0] *)
Definition fzero : float := S754_zero false.

(** [float(n)] for an integer below [2 ** 53] in absolute value. *)
Definition float_of_Z (n : Z) : float := binary_normalize prec emax n 0 false.

(** The float that a short decimal literal stands for, or that
    [float("...")] returns for it: the binary64 nearest to the fraction. *)
Definition flt (q : Q) : float :=
  SFdiv prec emax (float_of_Z (Qnum q)) (float_of_Z (Zpos (Qden q))).

(** ** Events on the queue *)

(** The tuples [("BTN", text)] and [("ERROR", message)]. *)
Inductive InputEvent : Type :=
| BTN (payload : string)
| ERROR (payload : string).

(** ** Keys returned by [stdscr.getch()] *)

Definition NO_KEY : Z := -1.
Definition KEY_DOWN : Z := 258.
Definition KEY_UP : Z := 259.
Definition KEY_LEFT : Z := 260.
Definition KEY_RIGHT : Z := 261.

(** [key in (ord("q"), ord("Q"))] *)
Definition is_quit (key : Z) : bool := (key =? 113) || (key =? 81).

(** ** The variables of [run_game] *)

Record state : Type := mkState {
  score : Z;
  lives : Z;
  round_no : Z;
  target : option string;
  prompt_time : float;
  last_info_msg : string;
  last_error_msg : string
}.

Definition directions : list string := ["UP"; "DOWN"; "LEFT"; "RIGHT"].

(** [serial_error_msg] after the thread start-up code. *)
Definition serial_error_msg (port_given serial_present : bool) : option string :=
  if port_given && negb serial_present
  then Some "pyserial not installed; running with keyboard only."
  else None.

(** The variables as they are when the loop is entered. *)
Definition initial_state (port_given serial_present : bool) : state :=
  {| score := 0;
     lives := 3;
     round_no := 0;
     target := None;
     prompt_time := fzero;
     last_info_msg := "";
     last_error_msg :=
       match serial_error_msg port_given serial_present with
       | Some m => m
       | None => ""
       end |}.

(** What a pass of the loop ends with: [continue] or falling through to the
    next pass, [break], or a [curses.error] that nothing catches. *)
Inductive control : Type :=
| Next (st : state)
| Exit (st : state)
| Raised (st : state).

Definition state_of (c : control) : state :=
  match c with Next st => st | Exit st => st | Raised st => st end.

Section Engine.

(** [max_reaction = args.reaction_time] *)
Variable max_reaction : float.

(** "Start a new round if needed" *)
Definition start_round (now : float) (draw : nat) (st : state) : state :=
  match target st with
  | None =>
      if 0 <? lives st then
        let t := random_choice draw directions in
        let n := round_no st + 1 in
        {| score := score st;
           lives := lives st;
           round_no := n;
           target := Some t;
           prompt_time := now;
           last_info_msg := "Round " ++ str n ++ "! Press " ++ t ++ "!";
           last_error_msg := last_error_msg st |}
      else st
  | Some _ => st
  end.

(** "Check time-out" *)
Definition check_timeout (now : float) (st : state) : state :=
  match target st with
  | Some t =>
      if fgt (fsub now (prompt_time st)) max_reaction then
        {| score := score st;
           lives := lives st - 1;
           round_no := round_no st;
           target := None;
           prompt_time := prompt_time st;
           last_info_msg := "Too slow! It was " ++ t ++ ".";
           last_error_msg := last_error_msg st |}
      else st
  | None => st
  end.

(** The part of a pass that runs before the screen is drawn. *)
Definition tick (now : float) (draw : nat) (st : state) : state :=
  check_timeout now (start_round now draw st).

(** "1) Consume all queued serial events": [queued] are the events that
    [get_nowait] hands out before it raises [queue.Empty]. *)
Fixpoint drain (queued : list InputEvent) (action : option string)
         (error_msg : string) : option string * string :=
  match queued with
  | [] => (action, error_msg)
  | BTN payload :: rest => drain rest (Some payload) error_msg
  | ERROR payload :: rest => drain rest action payload
  end.

(** "2) Keyboard input": whether the loop breaks, and [action]. *)
Definition keyboard (key : Z) (action : option string) : bool * option string :=
  if negb (key =? NO_KEY) then
    if is_quit key then (true, action)
    else if key =? KEY_UP then (false, Some "UP")
    else if key =? KEY_DOWN then (false, Some "DOWN")
    else if key =? KEY_LEFT then (false, Some "LEFT")
    else if key =? KEY_RIGHT then (false, Some "RIGHT")
    else (false, action)
  else (false, action).

(** Steps 1 and 2 together, from [action = None]. *)
Definition poll (queued : list InputEvent) (key : Z) (error_msg : string)
  : bool * option string * string :=
  let '(action, error_msg) := drain queued None error_msg in
  let '(quit, action) := keyboard key action in
  (quit, action, error_msg).

(** "3) Apply action" *)
Definition judge (now : float) (action : option string) (st : state) : state :=
  match action, target st with
  | Some a, Some t =>
      if fle (fsub now (prompt_time st)) max_reaction then
        if String.eqb a t then
          {| score := score st + 1;
             lives := lives st;
             round_no := round_no st;
             target := None;
             prompt_time := prompt_time st;
             last_info_msg := "Nice! " ++ a ++ " was correct.";
             last_error_msg := last_error_msg st |}
        else
          {| score := score st;
             lives := lives st - 1;
             round_no := round_no st;
             target := None;
             prompt_time := prompt_time st;
             last_info_msg :=
               "Oops! You pressed " ++ a ++ ", it was " ++ t ++ ".";
             last_error_msg := last_error_msg st |}
      else
        {| score := score st;
           lives := lives st - 1;
           round_no := round_no st;
           target := None;
           prompt_time := prompt_time st;
           last_info_msg :=
             "Too late! You pressed " ++ a ++ ", but the timer ran out.";
           last_error_msg := last_error_msg st |}
  | _, _ => st
  end.

Definition set_error (error_msg : string) (st : state) : state :=
  {| score := score st;
     lives := lives st;
     round_no := round_no st;
     target := target st;
     prompt_time := prompt_time st;
     last_info_msg := last_info_msg st;
     last_error_msg := error_msg |}.

(** One pass of the [while True] loop.  [drawn] tells whether the calls
    of "Draw UI" (from [erase] to the first [refresh]) all return, and
    [banner] whether those that draw the game-over message do; when one
    raises, the exception leaves [run_game] with the variables as they are
    then.  In the game-over branch the key is the one read by the [getch]
    of that branch and the queue is not looked at. *)
Definition frame (now : float) (draw : nat) (drawn banner : bool)
           (queued : list InputEvent) (key : Z) (st : state) : control :=
  let st1 := tick now draw st in
  if drawn then
    if lives st1 <=? 0 then
      if banner then
        if is_quit key then Exit st1 else Next st1
      else Raised st1
    else
      let '(quit, action, error_msg) := poll queued key (last_error_msg st1) in
      let st2 := set_error error_msg st1 in
      if quit then Exit st2 else Next (judge now action st2)
  else Raised st1.

(** What one pass gets from outside. *)
Record frame_input : Type := mkInput {
  in_now : float;
  in_draw : nat;
  in_drawn : bool;
  in_banner : bool;
  in_queued : list InputEvent;
  in_key : Z
}.

Definition frame_on (i : frame_input) (st : state) : control :=
  frame (in_now i) (in_draw i) (in_drawn i) (in_banner i) (in_queued i)
        (in_key i) st.

(** The loop over a finite run of passes; it stops at the first [break]
    and at the first exception. *)
Fixpoint run (inputs : list frame_input) (st : state) : control :=
  match inputs with
  | [] => Next st
  | i :: rest =>
      match frame_on i st with
      | Next st' => run rest st'
      | Exit st' => Exit st'
      | Raised st' => Raised st'
      end
  end.

(** The states the loop can be in at the top of a pass. *)
Inductive reachable : state -> Prop :=
| reach_init : forall port_given serial_present,
    reachable (initial_state port_given serial_present)
| reach_frame : forall i st st',
    reachable st -> frame_on i st = Next st' -> reachable st'.

End Engine.

(** ** The listener thread: [serial_reader] *)

Open Scope list_scope.

(** *** [bytes] and [str] methods used on a line *)

Definition newline : byte := x0a.

(** [b"\n" in buf] and [buf.split(b"\n", 1)]: the cut at the first newline. *)
Fixpoint split_newline (buf : list byte) : option (list byte * list byte) :=
  match buf with
  | [] => None
  | b :: rest =>
      if Byte.eqb b newline then Some ([], rest)
      else match split_newline rest with
           | Some (line, rest') => Some (b :: line, rest')
           | None => None
           end
  end.

(** The bytes that [bytes.strip()] removes: space, tab, newline, carriage
    return, vertical tab and form feed. *)
Definition is_space (b : byte) : bool :=
  match b with
  | x20 | x09 | x0a | x0d | x0b | x0c => true
  | _ => false
  end.

Fixpoint lstrip (l : list byte) : list byte :=
  match l with
  | [] => []
  | b :: rest => if is_space b then lstrip rest else l
  end.

Definition rstrip (l : list byte) : list byte := rev (lstrip (rev l)).

Definition strip (l : list byte) : list byte := rstrip (lstrip l).

(** A Python [str] is a sequence of code points. *)
Definition text : Type := list N.

Definition is_continuation (b : byte) : bool :=
  let c := Byte.to_N b in ((0x80 <=? c) && (c <? 0xC0))%N.

Definition low6 (b : byte) : N := (Byte.to_N b - 0x80)%N.

(** [bytes.decode("utf-8", errors=...)]: [on_error] is what the error
    handler puts in place of a malformed run ([errors="ignore"] puts
    nothing, [errors="replace"] puts U+FFFD); decoding resumes after the
    run, which is the lead byte with the continuation bytes accepted so
    far, or all that is left when the data ends inside a sequence. *)
Fixpoint utf8_decode (on_error : text) (s : list byte) : text :=
  match s with
  | [] => []
  | b0 :: r0 =>
      let c := Byte.to_N b0 in
      if (c <? 0x80)%N then c :: utf8_decode on_error r0
      else if (c <? 0xC2)%N then on_error ++ utf8_decode on_error r0
      else if (c <? 0xE0)%N then
        match r0 with
        | [] => on_error
        | b1 :: r1 =>
            if is_continuation b1
            then ((c - 0xC0) * 64 + low6 b1)%N :: utf8_decode on_error r1
            else on_error ++ utf8_decode on_error r0
        end
      else if (c <? 0xF0)%N then
        match r0 with
        | [] => on_error
        | b1 :: r1 =>
            let c1 := Byte.to_N b1 in
            if negb (is_continuation b1)
               || (if (c1 <? 0xA0)%N then (c =? 0xE0)%N else (c =? 0xED)%N)
            then on_error ++ utf8_decode on_error r0
            else
              match r1 with
              | [] => on_error
              | b2 :: r2 =>
                  if is_continuation b2
                  then (((c - 0xE0) * 64 + low6 b1) * 64 + low6 b2)%N
                         :: utf8_decode on_error r2
                  else on_error ++ utf8_decode on_error r1
              end
        end
      else if (c <? 0xF5)%N then
        match r0 with
        | [] => on_error
        | b1 :: r1 =>
            let c1 := Byte.to_N b1 in
            if negb (is_continuation b1)
               || (if (c1 <? 0x90)%N then (c =? 0xF0)%N else (c =? 0xF4)%N)
            then on_error ++ utf8_decode on_error r0
            else
              match r1 with
              | [] => on_error
              | b2 :: r2 =>
                  if negb (is_continuation b2)
                  then on_error ++ utf8_decode on_error r1
                  else
                    match r2 with
                    | [] => on_error
                    | b3 :: r3 =>
                        if is_continuation b3
                        then ((((c - 0xF0) * 64 + low6 b1) * 64 + low6 b2) * 64
                              + low6 b3)%N :: utf8_decode on_error r3
                        else on_error ++ utf8_decode on_error r2
                    end
              end
        end
      else on_error ++ utf8_decode on_error r0
  end.

(** [.decode(errors="ignore")] *)
Definition decode_ignore : list byte -> text := utf8_decode [].

(** The code points of a string of the program text (all ASCII). *)
Definition codepoints (s : string) : text :=
  map N_of_ascii (list_ascii_of_string s).

Fixpoint text_eqb (a b : text) : bool :=
  match a, b with
  | [], [] => true
  | x :: a', y :: b' => (x =? y)%N && text_eqb a' b'
  | _, _ => false
  end.

Definition valid : list string := ["UP"; "DOWN"; "LEFT"; "RIGHT"].

(** [text in valid], with the member found. *)
Definition lookup_valid (t : text) : option string :=
  find (fun v => text_eqb (codepoints v) t) valid.

(** What the thread does to the port and the queue, in order. *)
Inductive action : Type :=
| TryOpen
| Read
| Put (e : InputEvent)
| Sleep
| Close.

Inductive open_result : Type :=
| Opened
| OpenFailed (e : string).

Inductive read_result : Type :=
| Data (data : list byte)
| ReadFailed (e : string).

(** The events of a trace, in the order they were put on the queue. *)
Fixpoint published (trace : list action) : list InputEvent :=
  match trace with
  | [] => []
  | Put e :: rest => e :: published rest
  | _ :: rest => published rest
  end.

Definition inspect {A : Type} (a : A) : {b : A | a = b} := exist _ a eq_refl.

Lemma split_newline_shorter (buf line rest : list byte) :
  split_newline buf = Some (line, rest) ->
  (List.length rest < List.length buf)%nat.
Proof.
  revert line rest.
  induction buf as [|b buf IH]; intros line rest; simpl; [discriminate|].
  destruct (Byte.eqb b newline).
  - intros [= _ <-]. lia.
  - destruct (split_newline buf) as [[l r]|]; [|discriminate].
    intros [= _ <-]. specialize (IH l r eq_refl). lia.
Qed.

Section Listener.

(** The full uppercase mapping of the Unicode database on the code points
    above ASCII, which [str.upper()] applies to each of them. *)
Variable unicode_upper : N -> text.

Definition upper_char (c : N) : text :=
  if (c <? 128)%N then
    if ((97 <=? c) && (c <=? 122))%N then [(c - 32)%N] else [c]
  else unicode_upper c.

(** [str.upper()] *)
Definition upper (t : text) : text := flat_map upper_char t.

(** [line.strip().decode(errors="ignore").upper()] *)
Definition line_text (line : list byte) : text :=
  upper (decode_ignore (strip line)).

(** The [put] of one line, if any. *)
Definition line_puts (line : list byte) : list action :=
  match lookup_valid (line_text line) with
  | Some v => [Put (BTN v)]
  | None => []
  end.

(** [while b"\n" in buf: ...]: the puts made and the buffer left. *)
Equations? split_lines (buf : list byte) : list action * list byte
  by wf (List.length buf) lt :=
  split_lines buf with inspect (split_newline buf) := {
    | exist _ (Some (line, rest)) _ =>
        let r := split_lines rest in
        (line_puts line ++ fst r, snd r)
    | exist _ None _ => ([], buf) }.
Proof. eapply split_newline_shorter; eassumption. Qed.

(** [while not stop_event.is_set(): ...]: [reads] are the results of
    [ser.read(32)] for the passes made before the stop flag is seen
    set. *)
Fixpoint reader_loop (reads : list read_result) (buf : list byte)
  : list action * list byte :=
  match reads with
  | [] => ([], buf)
  | ReadFailed e :: _ => ([Read; Put (ERROR ("Serial read error: " ++ e)%string)], buf)
  | Data data :: rest =>
      match data with
      | [] =>
          let r := reader_loop rest buf in
          (Read :: Sleep :: fst r, snd r)
      | _ :: _ =>
          let s := split_lines (buf ++ data) in
          let r := reader_loop rest (snd s) in
          (Read :: fst s ++ fst r, snd r)
      end
  end.

(** [serial_reader(port, baudrate, event_queue, stop_event)] *)
Definition serial_reader (serial_present : bool) (port : string)
           (opened : open_result) (reads : list read_result) : list action :=
  if negb serial_present then []
  else
    match opened with
    | OpenFailed e =>
        [TryOpen;
         Put (ERROR ("Failed to open serial port " ++ port ++ ": " ++ e)%string)]
    | Opened => TryOpen :: fst (reader_loop reads []) ++ [Close]
    end.

End Listener.

(** ** Notions used to state the properties *)

(** A submission judged on its merits: the target is cleared, a correct
    action scores, a wrong one costs a life. *)
Definition judged_on_merits (a t : string) (st st' : state) : Prop :=
  target st' = None /\
  round_no st' = round_no st /\
  (a = t -> score st' = score st + 1 /\ lives st' = lives st) /\
  (a <> t -> score st' = score st /\ lives st' = lives st - 1).

(** The direction a key stands for, if it is an arrow key. *)
Definition key_direction (key : Z) : option string :=
  if key =? KEY_UP then Some "UP"
  else if key =? KEY_DOWN then Some "DOWN"
  else if key =? KEY_LEFT then Some "LEFT"
  else if key =? KEY_RIGHT then Some "RIGHT"
  else None.

(** The payloads of the [BTN] events of a queue, oldest first. *)
Fixpoint buttons (queued : list InputEvent) : list string :=
  match queued with
  | [] => []
  | BTN payload :: rest => payload :: buttons rest
  | ERROR _ :: rest => buttons rest
  end.

(** The action that [poll] leaves in [action]. *)
Definition polled_action (queued : list InputEvent) (key : Z) : option string :=
  snd (fst (poll queued key "")).

Definition no_newline (l : list byte) : bool :=
  forallb (fun b => negb (Byte.eqb b newline)) l.

(** A byte stream made of complete lines, each closed by a newline, and a
    last piece that is not closed yet. *)
Definition stream_of (lines : list (list byte)) (partial : list byte)
  : list byte :=
  flat_map (fun l => l ++ [newline]) lines ++ partial.

(** The tokens of a list of lines, for a given reading of a line as text. *)
Definition tokens_of (text_of : list byte -> text) (lines : list (list byte))
  : list string :=
  flat_map (fun l => match lookup_valid (text_of l) with
                     | Some v => [v]
                     | None => []
                     end) lines.

(** The listener fed a sequence of chunks: the tokens it puts on the queue
    and the buffer it is left with. *)
Definition feed_chunks (unicode_upper : N -> text) (chunks : list (list byte))
  : list InputEvent * list byte :=
  let r := reader_loop unicode_upper (map Data chunks) [] in
  (published (fst r), snd r).

(** The text of a line in the words of the specification: trimmed, decoded
    with every malformed run substituted (by U+FFFD, as
    [errors="replace"] does), upper-cased. *)
Definition decode_substituting : list byte -> text := utf8_decode [0xFFFD%N].

Definition spec_line_text (unicode_upper : N -> text) (line : list byte) : text :=
  upper unicode_upper (decode_substituting (strip line)).

(** A case table to run the examples with: the code points above ASCII are
    left as they are (none occurs in the examples). *)
Definition caseless (c : N) : text := [c].

Definition bytes (s : string) : list byte := list_byte_of_string s.


(** What holds of the variables at the top of every pass: no life count
    below zero, and a pending target only while a life is left. *)
Definition lives_ok (st : state) : Prop :=
  0 <= lives st /\ (target st <> None -> 0 < lives st).

(** ** Exact values of floats *)

(** A float that is a number: a zero, or a finite float in the form a
    binary64 has (neither an infinity nor NaN). *)
Definition number (x : float) : bool :=
  match x with
  | S754_zero _ => true
  | S754_finite _ m e => bounded prec emax m e
  | _ => false
  end.

(** The exact value of a number, counted in units of [2 ** -1074], the
    smallest positive binary64, of which every number is a whole
    multiple. *)
Definition exact (x : float) : Z :=
  match x with
  | S754_finite s m e => cond_Zopp s (Zpos m) * 2 ^ (e + 1074)
  | _ => 0
  end.

(** The deadline of the current prompt, as an exact value: the program
    keeps the time of the prompt and the window, not their sum. *)
Definition prompt_deadline (max_reaction : float) (st : state) : Z :=
  exact (prompt_time st) + exact max_reaction.

(** A float that is not below zero: [x < 0] is false. *)
Definition not_negative (x : float) : Prop := fgt fzero x = false.

(** *** The rounding of the standard library, in closed form *)

(** The state of the right shift of [M] after [j] bits: the quotient, and
    a flag that is set only if a bit that was shifted out is set. *)
Definition shifted (M j : Z) (mrs : shr_record) : Prop :=
  shr_m mrs = M / 2 ^ j /\
  (shr_r mrs || shr_s mrs = true -> M mod 2 ^ j <> 0).

(** The float with sign [s], mantissa [R] of at most 53 bits, or [2 ** 53],
    and exponent [g]. *)
Definition pack (s : bool) (R g : Z) : float :=
  if R =? 2 ^ 53 then
    if g + 1 <=? 971 then S754_finite s 4503599627370496 (g + 1)
    else S754_infinity s
  else
    match R with
    | Z0 => S754_zero s
    | Zpos m => if g <=? 971 then S754_finite s m g else S754_infinity s
    | Zneg _ => S754_nan
    end.

(** The second half of [binary_round_aux]. *)
Definition renormalize (s : bool) (R g : Z) : float :=
  let '(mrs, e) := shr_fexp prec emax R g loc_Exact in
  match shr_m mrs with
  | Z0 => S754_zero s
  | Zpos m => if e <=? emax - prec then S754_finite s m e else S754_infinity s
  | Zneg _ => S754_nan
  end.

(** ** Sample data *)

(** The reaction window the program uses when none is given. *)
Definition default_window : float := flt 1.5.

(** A pass in which the screen is drawn, nothing is pressed and nothing is
    queued. *)
Definition idle_pass (now : float) : frame_input :=
  {| in_now := now; in_draw := 0%nat; in_drawn := true; in_banner := true;
     in_queued := []; in_key := NO_KEY |}.

(** Round 1 prompting UP since time 10. *)
Definition round1_up : state :=
  {| score := 0;
     lives := 3;
     round_no := 1;
     target := Some "UP";
     prompt_time := flt 10;
     last_info_msg := "Round 1! Press UP!";
     last_error_msg := "" |}.


(** Three rounds, each left to time out. *)
Definition three_timeouts : list frame_input :=
  map idle_pass [flt 0; flt 2; flt 2; flt 4; flt 4; flt 6].

(** The variables after them: no life left, three rounds played. *)
Definition game_over_state : state :=
  {| score := 0;
     lives := 0;
     round_no := 3;
     target := None;
     prompt_time := flt 4;
     last_info_msg := "Too slow! It was UP.";
     last_error_msg := "" |}.

(** A game played as in the specification's scenario: round 1 answered
    after 0.3 s, then three rounds left to time out. *)
Definition scenario : list frame_input :=
  [ idle_pass (flt 10);
    {| in_now := flt 10.3; in_draw := 0%nat; in_drawn := true;
       in_banner := true; in_queued := [BTN "UP"]; in_key := NO_KEY |};
    idle_pass (flt 10.31); idle_pass (flt 11.82); idle_pass (flt 11.83);
    idle_pass (flt 13.4); idle_pass (flt 13.41); idle_pass (flt 15);
    idle_pass (flt 15.1);
    {| in_now := flt 15.2; in_draw := 1%nat; in_drawn := true;
       in_banner := true; in_queued := [BTN "DOWN"]; in_key := KEY_DOWN |} ].

(** ** Notions used to state further properties *)

(** 1 while a round waits for its answer, 0 otherwise. *)
Definition pending (st : state) : Z :=
  match target st with Some _ => 1 | None => 0 end.

(** Every round started is pending, scored or paid with a life. *)
Definition accounted (st : state) : Prop :=
  round_no st = score st + (3 - lives st) + pending st /\
  0 <= score st /\ lives st <= 3.

Definition target_in_directions (st : state) : Prop :=
  forall t, target st = Some t -> In t directions.

(** Whether a pass, or a run of passes, ended with [break]. *)
Definition is_exit (c : control) : bool :=
  match c with Exit _ => true | _ => false end.

(** Whether it ended with an exception. *)
Definition is_raised (c : control) : bool :=
  match c with Raised _ => true | _ => false end.

(** Whether every drawing call of a pass returns. *)
Definition drawing_ok (i : frame_input) : bool := in_drawn i && in_banner i.

Definition is_button (e : InputEvent) : bool :=
  match e with BTN _ => true | ERROR _ => false end.

(** The payloads of the [ERROR] events of a queue, oldest first. *)
Fixpoint errors (queued : list InputEvent) : list string :=
  match queued with
  | [] => []
  | ERROR payload :: rest => payload :: errors rest
  | BTN _ :: rest => errors rest
  end.

(** Two states that differ at most in the error line. *)
Definition same_game (st st' : state) : Prop :=
  set_error "" st = set_error "" st'.

(** The upper-case form of an ASCII code point. *)
Definition ascii_up (c : N) : N :=
  if ((97 <=? c) && (c <=? 122))%N then (c - 32)%N else c.

(** A byte string that spells the word [v], in any mix of letter cases. *)
Definition spells (w : list byte) (v : string) : Prop :=
  map ascii_up (map Byte.to_N w) = codepoints v.

(** The events of a listener: button events whose payloads are in the
    vocabulary, then at most one error event. *)
Definition well_formed_events (events : list InputEvent) : Prop :=
  exists vs tail,
    events = map BTN vs ++ tail /\
    Forall (fun v => In v valid) vs /\
    (tail = [] \/ exists m, tail = [ERROR m]).


(** * Properties of the float arithmetic *)

Lemma fexp_eq (e : Z) : fexp prec emax e = Z.max (e - 53) (-1074).
Proof. reflexivity. Qed.

Lemma pow2_pos (n : Z) : 0 <= n -> 0 < 2 ^ n.
Proof. intros. apply Z.pow_pos_nonneg; lia. Qed.

Lemma pow2_split (a b : Z) : 0 <= a -> 0 <= b -> 2 ^ (a + b) = 2 ^ a * 2 ^ b.
Proof. intros. apply Z.pow_add_r; assumption. Qed.

Lemma digits2_pos_bounds (m : positive) :
  2 ^ (Zpos (digits2_pos m) - 1) <= Zpos m < 2 ^ Zpos (digits2_pos m).
Proof.
  induction m as [m IH | m IH |]; simpl digits2_pos.
  - rewrite Pos2Z.inj_succ.
    replace (Z.succ (Zpos (digits2_pos m)) - 1)
      with (Z.succ (Zpos (digits2_pos m) - 1)) by lia.
    rewrite !Z.pow_succ_r by lia. lia.
  - rewrite Pos2Z.inj_succ.
    replace (Z.succ (Zpos (digits2_pos m)) - 1)
      with (Z.succ (Zpos (digits2_pos m) - 1)) by lia.
    rewrite !Z.pow_succ_r by lia. lia.
  - simpl. lia.
Qed.

Lemma Zdigits2_bounds (m : Z) :
  0 < m -> 2 ^ (Zdigits2 m - 1) <= m < 2 ^ Zdigits2 m.
Proof.
  destruct m as [|p|p]; try lia. intros _. apply digits2_pos_bounds.
Qed.

Lemma Zdigits2_le (m : Z) (d : Z) :
  0 < m -> m < 2 ^ d -> 0 <= d -> Zdigits2 m <= d.
Proof.
  intros Hm Hd H0.
  destruct (Z.le_gt_cases (Zdigits2 m) d) as [H|H]; [exact H|].
  pose proof (Zdigits2_bounds m Hm) as [L _].
  assert (2 ^ d <= 2 ^ (Zdigits2 m - 1)) by (apply Z.pow_le_mono_r; lia).
  lia.
Qed.

Lemma iter_xO (m d : positive) : Zpos (Pos.iter xO m d) = Zpos m * 2 ^ Zpos d.
Proof.
  pose proof (shift_pos_correct d m) as H. unfold shift_pos in H.
  rewrite H. change (Zpower_pos 2 d) with (2 ^ Zpos d). lia.
Qed.

Lemma digits_iter_xO (m d : positive) :
  Zpos (digits2_pos (Pos.iter xO m d)) = Zpos (digits2_pos m) + Zpos d.
Proof.
  induction d as [|d IH] using Pos.peano_ind.
  - simpl. lia.
  - rewrite Pos.iter_succ. simpl digits2_pos. lia.
Qed.

(** *** The right shift that keeps track of the bits lost *)

Lemma iter_pos_invariant {A : Type} (f : A -> A) (P : Z -> A -> Prop) :
  (forall j x, 0 <= j -> P j x -> P (j + 1) (f x)) ->
  forall n j x, 0 <= j -> P j x -> P (j + Zpos n) (iter_pos f n x).
Proof.
  intros Hstep. induction n as [n IH | n IH |]; intros j x Hj Hx; simpl.
  - replace (j + Zpos n~1) with ((j + 1 + Zpos n) + Zpos n) by lia.
    apply IH; [lia|]. apply IH; [lia|]. apply Hstep; assumption.
  - replace (j + Zpos n~0) with ((j + Zpos n) + Zpos n) by lia.
    apply IH; [lia|]. apply IH; assumption.
  - apply Hstep; assumption.
Qed.

Lemma shr_1_spec (m : Z) (r s : bool) :
  0 <= m ->
  shr_1 (Build_shr_record m r s) = Build_shr_record (m / 2) (Z.odd m) (r || s).
Proof.
  intros Hm. destruct m as [|p|p]; [reflexivity| |lia].
  destruct p as [p|p|]; simpl shr_1; f_equal.
  - rewrite Pos2Z.inj_xI. apply Z.div_unique with 1; lia.
  - rewrite Pos2Z.inj_xO. apply Z.div_unique with 0; lia.
Qed.

Lemma shifted_step (M j : Z) (mrs : shr_record) :
  0 <= M -> 0 <= j -> shifted M j mrs -> shifted M (j + 1) (shr_1 mrs).
Proof.
  intros HM Hj [Hm Hf]. destruct mrs as [m r s]. simpl in Hm, Hf.
  assert (Hp : 0 < 2 ^ j) by (apply pow2_pos; lia).
  assert (H0 : 0 <= m) by (subst m; apply Z.div_pos; lia).
  rewrite shr_1_spec by exact H0.
  assert (E : 2 ^ (j + 1) = 2 ^ j * 2) by (rewrite Z.pow_add_r by lia; reflexivity).
  split; simpl.
  - rewrite Hm, E. rewrite Z.div_div by lia. reflexivity.
  - intros Hflag Hmod. rewrite E in Hmod.
    assert (Hdiv : M = 2 ^ j * 2 * (M / (2 ^ j * 2))).
    { pose proof (Z.div_mod M (2 ^ j * 2)). lia. }
    set (c := M / (2 ^ j * 2)) in *.
    assert (Hmj : M mod 2 ^ j = 0).
    { rewrite Hdiv. replace (2 ^ j * 2 * c) with ((2 * c) * 2 ^ j) by lia.
      apply Z.mod_mul. lia. }
    assert (Hq : m = 2 * c).
    { rewrite Hm. rewrite Hdiv at 1.
      replace (2 ^ j * 2 * c) with ((2 * c) * 2 ^ j) by lia.
      apply Z.div_mul. lia. }
    apply orb_true_iff in Hflag. destruct Hflag as [Ho | Hrs].
    + rewrite Hq in Ho. rewrite Z.odd_mul in Ho. simpl in Ho. discriminate.
    + apply Hf; assumption.
Qed.

Lemma shifted_iter (M : Z) (n : positive) :
  0 <= M ->
  shifted M (Zpos n) (iter_pos shr_1 n (Build_shr_record M false false)).
Proof.
  intros HM.
  change (Zpos n) with (0 + Zpos n).
  apply (iter_pos_invariant shr_1 (shifted M)).
  - intros j x Hj Hx. apply shifted_step; assumption.
  - lia.
  - split; simpl; [rewrite Z.div_1_r; reflexivity | discriminate].
Qed.

Lemma round_nearest_even_bounds (mrs : shr_record) :
  let R := round_nearest_even (shr_m mrs) (loc_of_shr_record mrs) in
  shr_m mrs <= R <= shr_m mrs + 1 /\
  (shr_r mrs || shr_s mrs = false -> R = shr_m mrs).
Proof.
  destruct mrs as [m r s].
  destruct r, s; simpl; try destruct (Z.even m);
    (split; [lia | intros H; try discriminate H; reflexivity]).
Qed.

(** *** What [binary_round] returns *)

Lemma renormalize_pack (s : bool) (R g : Z) :
  0 <= R <= 2 ^ 53 -> -1074 <= g -> renormalize s R g = pack s R g.
Proof.
  intros HR Hg. unfold renormalize, shr_fexp, pack. rewrite fexp_eq.
  destruct (Z.eqb_spec R (2 ^ 53)) as [E | NE].
  - subst R. change (Zdigits2 (2 ^ 53)) with 54.
    replace (Z.max (54 + g - 53) (-1074) - g) with 1 by lia.
    reflexivity.
  - assert (Hn : Z.max (Zdigits2 R + g - 53) (-1074) - g <= 0).
    { destruct (Z.eq_dec R 0) as [-> | H0]; [simpl; lia|].
      assert (Zdigits2 R <= 53) by (apply Zdigits2_le; lia). lia. }
    unfold shr.
    destruct (Z.max (Zdigits2 R + g - 53) (-1074) - g) as [|p|p] eqn:En;
      try lia; simpl; destruct R; reflexivity.
Qed.

Lemma binary_round_aux_eq (s : bool) (m e : Z) :
  binary_round_aux prec emax s m e loc_Exact
  = (let '(mrs, e') := shr_fexp prec emax m e loc_Exact in
     renormalize s (round_nearest_even (shr_m mrs) (loc_of_shr_record mrs)) e').
Proof. reflexivity. Qed.

(** Rounding [M * 2 ** ez] gives a mantissa [R] at the exponent [g] of the
    format: [R] is exact when no bit has to go, and otherwise the quotient
    of [M] by the bits that go, or one more when one of them is set. *)
Lemma binary_round_pack (s : bool) (M : positive) (ez : Z) :
  -1074 <= ez ->
  let g := fexp prec emax (Zpos (digits2_pos M) + ez) in
  exists R,
    binary_round prec emax s M ez = pack s R g /\
    0 < R <= 2 ^ 53 /\
    (g <= ez -> R = Zpos M * 2 ^ (ez - g)) /\
    (ez < g ->
     Zpos M / 2 ^ (g - ez) <= R <= Zpos M / 2 ^ (g - ez) + 1 /\
     (Zpos M mod 2 ^ (g - ez) = 0 -> R = Zpos M / 2 ^ (g - ez))).
Proof.
  intros Hez g.
  pose proof (digits2_pos_bounds M) as [HMl HMu].
  assert (Hg : g = Z.max (Zpos (digits2_pos M) + ez - 53) (-1074))
    by (unfold g; apply fexp_eq).
  unfold binary_round, shl_align. fold g.
  destruct (g - ez) as [|p|p] eqn:En.
  - (* no shift *)
    assert (g = ez) by lia.
    exists (Zpos M).
    rewrite binary_round_aux_eq. unfold shr_fexp. simpl Zdigits2.
    fold g. rewrite En. simpl shr. cbv beta iota zeta.
    cbn [shr_m shr_r shr_s loc_of_shr_record round_nearest_even].
    assert (Zpos M < 2 ^ 53).
    { eapply Z.lt_le_trans; [exact HMu|]. apply Z.pow_le_mono_r; lia. }
    rewrite renormalize_pack; [|lia|lia].
    split; [f_equal; lia|].
    split; [lia|]. split; [|lia].
    intros _. replace (ez - g) with 0 by lia. rewrite Z.pow_0_r. lia.
  - (* shift right, with rounding *)
    assert (Hgk : g = Zpos (digits2_pos M) + ez - 53) by lia.
    assert (Hp : Zpos p = Zpos (digits2_pos M) - 53) by lia.
    rewrite binary_round_aux_eq. unfold shr_fexp. simpl Zdigits2.
    fold g. rewrite En. simpl shr_record_of_loc. unfold shr.
    cbv beta iota zeta.
    pose proof (shifted_iter (Zpos M) p ltac:(lia)) as [Hm Hf].
    set (mrs := iter_pos shr_1 p
                  {| shr_m := Zpos M; shr_r := false; shr_s := false |}) in *.
    pose proof (round_nearest_even_bounds mrs) as [Hb He]. cbv zeta in Hb, He.
    set (R := round_nearest_even (shr_m mrs) (loc_of_shr_record mrs)) in *.
    assert (Hq : 2 ^ 52 <= Zpos M / 2 ^ Zpos p < 2 ^ 53).
    { assert (E1 : 2 ^ Zpos (digits2_pos M) = 2 ^ 53 * 2 ^ Zpos p).
      { rewrite <- Z.pow_add_r by lia. f_equal. lia. }
      assert (E2 : 2 ^ (Zpos (digits2_pos M) - 1) = 2 ^ 52 * 2 ^ Zpos p).
      { rewrite <- Z.pow_add_r by lia. f_equal. lia. }
      assert (0 < 2 ^ Zpos p) by (apply pow2_pos; lia).
      split.
      - apply Z.div_le_lower_bound; lia.
      - apply Z.div_lt_upper_bound; lia. }
    exists R. rewrite renormalize_pack; [|lia|lia].
    replace (ez + Zpos p) with g by lia.
    split; [reflexivity|]. split; [lia|]. split; [lia|].
    intros _. rewrite <- Hm. split; [exact Hb|].
    intros Hmod. apply He.
    destruct (shr_r mrs || shr_s mrs) eqn:Ef; [|reflexivity].
    exfalso. apply Hf; [reflexivity | exact Hmod].
  - (* shift left, exact *)
    assert (Hd : ez - g = Zpos p) by lia.
    exists (Zpos (Pos.iter xO M p)).
    rewrite binary_round_aux_eq. unfold shr_fexp.
    change (Zdigits2 (Zpos (Pos.iter xO M p)))
      with (Zpos (digits2_pos (Pos.iter xO M p))).
    rewrite digits_iter_xO. rewrite fexp_eq.
    replace (Z.max (Zpos (digits2_pos M) + Zpos p + g - 53) (-1074) - g)
      with 0 by lia.
    simpl shr. cbv beta iota zeta.
    cbn [shr_m shr_r shr_s loc_of_shr_record round_nearest_even
         shr_record_of_loc].
    assert (Hlt : Zpos (Pos.iter xO M p) < 2 ^ 53).
    { rewrite iter_xO.
      assert (E1 : 2 ^ (Zpos (digits2_pos M) + Zpos p)
                   = 2 ^ Zpos (digits2_pos M) * 2 ^ Zpos p)
        by (apply Z.pow_add_r; lia).
      assert (0 < 2 ^ Zpos p) by (apply pow2_pos; lia).
      assert (2 ^ (Zpos (digits2_pos M) + Zpos p) <= 2 ^ 53)
        by (apply Z.pow_le_mono_r; lia).
      nia. }
    rewrite renormalize_pack; [|lia|lia].
    split; [reflexivity|]. split; [lia|]. split; [|lia].
    intros _. rewrite iter_xO, Hd. reflexivity.
Qed.

(** *** The order of a rounded value and a number *)

Lemma bounded_facts (m : positive) (e : Z) :
  bounded prec emax m e = true ->
  e = Z.max (Zpos (digits2_pos m) + e - 53) (-1074) /\ e <= 971.
Proof.
  unfold bounded, canonical_mantissa. rewrite fexp_eq.
  intros H. apply andb_true_iff in H. destruct H as [H1 H2].
  apply Z.eqb_eq in H1. apply Z.leb_le in H2.
  change (emax - prec) with 971 in H2. split; [symmetry; exact H1 | exact H2].
Qed.

Lemma pack_negative_le (R g : Z) (w : float) :
  0 < R ->
  match w with
  | S754_zero _ | S754_finite false _ _ => True
  | _ => False
  end ->
  SFleb (pack true R g) w = true.
Proof.
  intros HR Hw. unfold pack.
  destruct (R =? 2 ^ 53).
  - destruct (g + 1 <=? 971); destruct w as [sw|sw| |[|] mw ew];
      try contradiction; reflexivity.
  - destruct R as [|m|m]; try lia.
    destruct (g <=? 971); destruct w as [sw|sw| |[|] mw ew];
      try contradiction; reflexivity.
Qed.

(** A value rounded to the format is not above a number that is not below
    the value itself. *)
Lemma pack_le (s : bool) (M : positive) (ez R : Z) (w : float) :
  -1074 <= ez ->
  let g := fexp prec emax (Zpos (digits2_pos M) + ez) in
  0 < R <= 2 ^ 53 ->
  (g <= ez -> R = Zpos M * 2 ^ (ez - g)) ->
  (ez < g ->
   Zpos M / 2 ^ (g - ez) <= R <= Zpos M / 2 ^ (g - ez) + 1 /\
   (Zpos M mod 2 ^ (g - ez) = 0 -> R = Zpos M / 2 ^ (g - ez))) ->
  number w = true ->
  cond_Zopp s (Zpos M) * 2 ^ (ez + 1074) <= exact w ->
  SFleb (pack s R g) w = true.
Proof.
  intros Hez g HR Hexact Hround Hw Hle.
  assert (Hg : g = Z.max (Zpos (digits2_pos M) + ez - 53) (-1074))
    by (unfold g; apply fexp_eq).
  clearbody g.
  pose proof (digits2_pos_bounds M) as [HMl HMu].
  assert (HE : 0 < 2 ^ (ez + 1074)) by (apply pow2_pos; lia).
  destruct w as [sw|sw| |sw mw ew]; try discriminate Hw.
  - (* w is zero *)
    destruct s; [apply pack_negative_le; [lia | exact I]|].
    cbn [exact cond_Zopp] in Hle. nia.
  - simpl in Hw. apply bounded_facts in Hw. destruct Hw as [Hcw Hew].
    pose proof (digits2_pos_bounds mw) as [Hwl Hwu].
    assert (HW : 0 < 2 ^ (ew + 1074)) by (apply pow2_pos; lia).
    destruct s, sw; cbn [exact cond_Zopp] in Hle.
    + (* both negative *)
      assert (Hk : Zpos (digits2_pos mw) + ew <= Zpos (digits2_pos M) + ez).
      { destruct (Z.le_gt_cases (Zpos (digits2_pos mw) + ew)
                                (Zpos (digits2_pos M) + ez)) as [H|H]; [exact H|].
        exfalso.
        assert (E1 : 2 ^ (Zpos (digits2_pos M) + (ez + 1074))
                     = 2 ^ Zpos (digits2_pos M) * 2 ^ (ez + 1074))
          by (apply pow2_split; lia).
        assert (E2 : 2 ^ ((Zpos (digits2_pos mw) - 1) + (ew + 1074))
                     = 2 ^ (Zpos (digits2_pos mw) - 1) * 2 ^ (ew + 1074))
          by (apply pow2_split; lia).
        assert (E3 : 2 ^ (Zpos (digits2_pos M) + (ez + 1074))
                     <= 2 ^ ((Zpos (digits2_pos mw) - 1) + (ew + 1074)))
          by (apply Z.pow_le_mono_r; lia).
        nia. }
      assert (Hge : ew <= g) by lia.
      unfold pack. destruct (Z.eqb_spec R (2 ^ 53)) as [ER | NR].
      * destruct (g + 1 <=? 971); [|reflexivity].
        unfold SFleb, SFcompare.
        destruct (Z.compare_spec (g + 1) ew); solve [lia | reflexivity].
      * destruct R as [|m|m]; try lia.
        destruct (g <=? 971); [|reflexivity].
        unfold SFleb, SFcompare.
        destruct (Z.compare_spec g ew) as [Eg|Eg|Eg];
          [|exfalso; lia|reflexivity].
        assert (Hm : Zpos mw <= Zpos m).
        { subst ew. destruct (Z.le_gt_cases g ez) as [Hc|Hc].
          - specialize (Hexact Hc).
            assert (E1 : 2 ^ ((ez - g) + (g + 1074))
                         = 2 ^ (ez - g) * 2 ^ (g + 1074))
              by (apply pow2_split; lia).
            replace (ez - g + (g + 1074)) with (ez + 1074) in E1 by lia.
            assert (0 < 2 ^ (ez - g)) by (apply pow2_pos; lia).
            rewrite Hexact. nia.
          - destruct (Hround Hc) as [[Hq _] _].
            assert (E1 : 2 ^ ((g - ez) + (ez + 1074))
                         = 2 ^ (g - ez) * 2 ^ (ez + 1074))
              by (apply pow2_split; lia).
            replace (g - ez + (ez + 1074)) with (g + 1074) in E1 by lia.
            assert (HP : 0 < 2 ^ (g - ez)) by (apply pow2_pos; lia).
            assert (Zpos mw <= Zpos M / 2 ^ (g - ez)).
            { apply Z.div_le_lower_bound; [exact HP|]. nia. }
            lia. }
        change (Pos.compare_cont Eq m mw) with (Pos.compare m mw).
        destruct (Pos.compare_spec m mw) as [Hc|Hc|Hc]; try reflexivity.
        exfalso. clear - Hm Hc. lia.
    + (* negative against positive *)
      apply pack_negative_le; [lia | exact I].
    + (* positive against negative *)
      exfalso. nia.
    + (* both positive *)
      assert (Hk : Zpos (digits2_pos M) + ez <= Zpos (digits2_pos mw) + ew).
      { destruct (Z.le_gt_cases (Zpos (digits2_pos M) + ez)
                                (Zpos (digits2_pos mw) + ew)) as [H|H]; [exact H|].
        exfalso.
        assert (E1 : 2 ^ (Zpos (digits2_pos mw) + (ew + 1074))
                     = 2 ^ Zpos (digits2_pos mw) * 2 ^ (ew + 1074))
          by (apply pow2_split; lia).
        assert (E2 : 2 ^ ((Zpos (digits2_pos M) - 1) + (ez + 1074))
                     = 2 ^ (Zpos (digits2_pos M) - 1) * 2 ^ (ez + 1074))
          by (apply pow2_split; lia).
        assert (E3 : 2 ^ (Zpos (digits2_pos mw) + (ew + 1074))
                     <= 2 ^ ((Zpos (digits2_pos M) - 1) + (ez + 1074)))
          by (apply Z.pow_le_mono_r; lia).
        nia. }
      assert (Hge : g <= ew) by lia.
      assert (HB : 0 < 2 ^ (ew - g)) by (apply pow2_pos; lia).
      assert (Hmw : Zpos mw < 2 ^ 53).
      { eapply Z.lt_le_trans; [exact Hwu|]. apply Z.pow_le_mono_r; lia. }
      assert (HR' : R <= Zpos mw * 2 ^ (ew - g)).
      { destruct (Z.le_gt_cases g ez) as [Hc|Hc].
        - specialize (Hexact Hc).
          assert (E1 : 2 ^ ((ez - g) + (g + 1074))
                       = 2 ^ (ez - g) * 2 ^ (g + 1074))
            by (apply pow2_split; lia).
          replace (ez - g + (g + 1074)) with (ez + 1074) in E1 by lia.
          assert (E2 : 2 ^ ((ew - g) + (g + 1074))
                       = 2 ^ (ew - g) * 2 ^ (g + 1074))
            by (apply pow2_split; lia).
          replace (ew - g + (g + 1074)) with (ew + 1074) in E2 by lia.
          assert (0 < 2 ^ (g + 1074)) by (apply pow2_pos; lia).
          rewrite Hexact. nia.
        - destruct (Hround Hc) as [[_ Hq] He].
          assert (HP : 0 < 2 ^ (g - ez)) by (apply pow2_pos; lia).
          assert (E1 : 2 ^ ((ew - g) + ((g - ez) + (ez + 1074)))
                       = 2 ^ (ew - g) * (2 ^ (g - ez) * 2 ^ (ez + 1074))).
          { rewrite pow2_split by lia. rewrite (pow2_split (g - ez)) by lia.
            reflexivity. }
          replace (ew - g + (g - ez + (ez + 1074))) with (ew + 1074) in E1 by lia.
          assert (HMle : Zpos M <= (Zpos mw * 2 ^ (ew - g)) * 2 ^ (g - ez)).
          { rewrite E1 in Hle. nia. }
          pose proof (Z.div_mod (Zpos M) (2 ^ (g - ez)) ltac:(lia)) as Hdm.
          pose proof (Z.mod_pos_bound (Zpos M) (2 ^ (g - ez)) HP) as Hmb.
          destruct (Z.eq_dec (Zpos M mod 2 ^ (g - ez)) 0) as [H0|H0].
          + rewrite (He H0). apply Z.div_le_upper_bound; [exact HP|]. nia.
          + assert (Zpos M / 2 ^ (g - ez) < Zpos mw * 2 ^ (ew - g)) by nia.
            lia. }
      unfold pack. destruct (Z.eqb_spec R (2 ^ 53)) as [ER | NR].
      * assert (Hlt : g < ew).
        { destruct (Z.eq_dec g ew) as [->|]; [|lia].
          replace (ew - ew) with 0 in HR' by lia. rewrite Z.pow_0_r in HR'. lia. }
        destruct (Z.leb_spec (g + 1) 971); [|lia].
        unfold SFleb, SFcompare.
        destruct (Z.compare_spec (g + 1) ew) as [Eg|Eg|Eg];
          [|reflexivity|exfalso; lia].
        assert (Hm : 2 ^ 52 <= Zpos mw).
        { replace (ew - g) with 1 in HR' by lia. lia. }
        change (Pos.compare_cont Eq 4503599627370496 mw)
          with (Pos.compare 4503599627370496 mw).
        destruct (Pos.compare_spec 4503599627370496 mw) as [Hc|Hc|Hc];
          try reflexivity.
        exfalso. apply (proj1 (Pos.lt_nle _ _) Hc). exact Hm.
      * destruct R as [|m|m]; try lia.
        destruct (Z.leb_spec g 971); [|lia].
        unfold SFleb, SFcompare.
        destruct (Z.compare_spec g ew) as [Eg|Eg|Eg];
          [|reflexivity|exfalso; lia].
        assert (Hm : Zpos m <= Zpos mw).
        { subst ew. replace (g - g) with 0 in HR' by lia.
          rewrite Z.pow_0_r in HR'. lia. }
        change (Pos.compare_cont Eq m mw) with (Pos.compare m mw).
        destruct (Pos.compare_spec m mw) as [Hc|Hc|Hc]; try reflexivity.
        exfalso. clear - Hm Hc. lia.
Qed.

Lemma finite_pack (s : bool) (m : positive) (e : Z) :
  bounded prec emax m e = true ->
  S754_finite s m e = pack s (Zpos m) e /\
  fexp prec emax (Zpos (digits2_pos m) + e) = e /\
  Zpos m < 2 ^ 53 /\ -1074 <= e.
Proof.
  intros H. apply bounded_facts in H. destruct H as [Hc He].
  pose proof (digits2_pos_bounds m) as [_ Hu].
  assert (Hm : Zpos m < 2 ^ 53).
  { eapply Z.lt_le_trans; [exact Hu|]. apply Z.pow_le_mono_r; lia. }
  split; [|split; [rewrite fexp_eq; lia | split; [exact Hm | lia]]].
  unfold pack.
  destruct (Z.eqb_spec (Zpos m) (2 ^ 53)); [lia|].
  destruct (Z.leb_spec e 971); [reflexivity | lia].
Qed.

(** Order of two numbers, read off their exact values. *)
Lemma number_le (r w : float) :
  number r = true -> number w = true ->
  exact r <= exact w -> SFleb r w = true.
Proof.
  intros Hr Hw Hle.
  destruct r as [sr|sr| |sr mr er]; try discriminate Hr.
  - destruct w as [sw|sw| |sw mw ew]; try discriminate Hw; [reflexivity|].
    destruct sw; [|reflexivity].
    exfalso. cbn [exact cond_Zopp] in Hle.
    simpl in Hw. apply bounded_facts in Hw.
    assert (0 < 2 ^ (ew + 1074)) by (apply pow2_pos; lia). nia.
  - simpl in Hr. destruct (finite_pack sr mr er Hr) as (E & Hg & Hm & He).
    rewrite E.
    replace (pack sr (Zpos mr) er)
      with (pack sr (Zpos mr) (fexp prec emax (Zpos (digits2_pos mr) + er)))
      by (rewrite Hg; reflexivity).
    apply (pack_le sr mr er (Zpos mr) w He); try assumption.
    + lia.
    + rewrite Hg. intros _. replace (er - er) with 0 by lia.
      rewrite Z.pow_0_r. lia.
    + rewrite Hg. lia.
Qed.

Lemma shl_align_fst (m : positive) (e e' : Z) :
  e' <= e -> Zpos (fst (shl_align m e e')) = Zpos m * 2 ^ (e - e').
Proof.
  intros H. unfold shl_align.
  destruct (e' - e) as [|p|p] eqn:E; simpl fst.
  - replace (e - e') with 0 by lia. rewrite Z.pow_0_r. lia.
  - lia.
  - rewrite iter_xO. f_equal. f_equal. lia.
Qed.

(** The subtraction never rounds a difference up past a number that
    bounds it: if [x - y <= w] holds exactly then it holds as computed. *)
Lemma fsub_le_sound (x y w : float) :
  number x = true -> number y = true -> number w = true ->
  exact x - exact y <= exact w ->
  SFleb (SFsub prec emax x y) w = true.
Proof.
  intros Hx Hy Hw Hle.
  destruct x as [sx|sx| |sx mx ex]; try discriminate Hx;
    destruct y as [sy|sy| |sy my ey]; try discriminate Hy.
  - (* 0 - 0 *)
    assert (E : exists s, SFsub prec emax (S754_zero sx) (S754_zero sy) = S754_zero s)
      by (destruct sx, sy; simpl; eauto).
    destruct E as [s ->]. apply number_le; [reflexivity | exact Hw | exact Hle].
  - (* 0 - y *)
    change (SFsub prec emax (S754_zero sx) (S754_finite sy my ey))
      with (S754_finite (negb sy) my ey).
    apply number_le; [exact Hy | exact Hw |].
    cbn [exact] in *. destruct sy; cbn [negb cond_Zopp] in *; lia.
  - (* x - 0 *)
    change (SFsub prec emax (S754_finite sx mx ex) (S754_zero sy))
      with (S754_finite sx mx ex).
    apply number_le; [exact Hx | exact Hw |].
    cbn [exact] in *. lia.
  - (* x - y, rounded *)
    simpl in Hx, Hy.
    destruct (finite_pack sx mx ex Hx) as (_ & _ & _ & Hex).
    destruct (finite_pack sy my ey Hy) as (_ & _ & _ & Hey).
    unfold SFsub.
    set (ez := Z.min ex ey).
    assert (Hez : -1074 <= ez) by (unfold ez; lia).
    rewrite (shl_align_fst mx ex ez) by (unfold ez; lia).
    rewrite (shl_align_fst my ey ez) by (unfold ez; lia).
    set (Mz := cond_Zopp sx (Zpos mx * 2 ^ (ex - ez))
               - cond_Zopp sy (Zpos my * 2 ^ (ey - ez))).
    assert (HM : exact (S754_finite sx mx ex) - exact (S754_finite sy my ey)
                 = Mz * 2 ^ (ez + 1074)).
    { unfold Mz. cbn [exact].
      assert (E1 : 2 ^ ((ex - ez) + (ez + 1074)) = 2 ^ (ex - ez) * 2 ^ (ez + 1074))
        by (apply pow2_split; unfold ez; lia).
      replace (ex - ez + (ez + 1074)) with (ex + 1074) in E1 by lia.
      assert (E2 : 2 ^ ((ey - ez) + (ez + 1074)) = 2 ^ (ey - ez) * 2 ^ (ez + 1074))
        by (apply pow2_split; unfold ez; lia).
      replace (ey - ez + (ez + 1074)) with (ey + 1074) in E2 by lia.
      rewrite E1, E2. destruct sx, sy; cbn [cond_Zopp]; ring. }
    rewrite HM in Hle. clearbody Mz.
    destruct Mz as [|M|M]; unfold binary_normalize.
    + apply number_le; [reflexivity | exact Hw | exact Hle].
    + destruct (binary_round_pack false M ez Hez) as (R & -> & HR & Hexact & Hround).
      apply (pack_le false M ez R w Hez HR Hexact Hround Hw). exact Hle.
    + destruct (binary_round_pack true M ez Hez) as (R & -> & HR & Hexact & Hround).
      apply (pack_le true M ez R w Hez HR Hexact Hround Hw). exact Hle.
Qed.

(** [SFcompare] read the other way round. *)
Lemma SFcompare_swap (x y : float) :
  SFcompare y x = option_map CompOpp (SFcompare x y).
Proof.
  destruct x as [sx|sx| |sx mx ex], y as [sy|sy| |sy my ey];
    try reflexivity;
    try (destruct sx; reflexivity); try (destruct sy; reflexivity);
    try (destruct sx, sy; reflexivity).
  simpl. destruct sx, sy; try reflexivity.
  - rewrite (Z.compare_antisym ey ex).
    destruct (ey ?= ex); simpl; try reflexivity.
    change (Pos.compare_cont Eq my mx) with (Pos.compare my mx).
    change (Pos.compare_cont Eq mx my) with (Pos.compare mx my).
    rewrite (Pos.compare_antisym mx my). reflexivity.
  - rewrite (Z.compare_antisym ey ex).
    destruct (ey ?= ex); simpl; try reflexivity.
    change (Pos.compare_cont Eq my mx) with (Pos.compare my mx).
    change (Pos.compare_cont Eq mx my) with (Pos.compare mx my).
    rewrite (Pos.compare_antisym mx my). reflexivity.
Qed.

Lemma SFleb_not_gt (x y : float) : SFleb x y = true -> SFltb y x = false.
Proof.
  unfold SFleb, SFltb. rewrite (SFcompare_swap x y).
  destruct (SFcompare x y) as [[| |]|]; simpl; congruence.
Qed.

Lemma SFltb_false_leb (x y : float) :
  SFcompare x y <> None -> SFltb y x = false -> SFleb x y = true.
Proof.
  unfold SFleb, SFltb. rewrite (SFcompare_swap x y).
  destruct (SFcompare x y) as [[| |]|]; simpl; congruence.
Qed.


(** [x - x] is zero, or NaN when [x] is not a number. *)
Lemma SFsub_diag (x : float) :
  (exists s, SFsub prec emax x x = S754_zero s) \/ SFsub prec emax x x = S754_nan.
Proof.
  destruct x as [s|s| |s m e].
  - left. destruct s; simpl; eauto.
  - right. destruct s; reflexivity.
  - right. reflexivity.
  - left. exists false. unfold SFsub.
    replace (cond_Zopp s (Zpos (fst (shl_align m e (Z.min e e))))
             - cond_Zopp s (Zpos (fst (shl_align m e (Z.min e e))))) with 0 by lia.
    reflexivity.
Qed.

Lemma SFltb_zero_sign (x : float) (s s' : bool) :
  SFltb x (S754_zero s) = SFltb x (S754_zero s').
Proof. destruct x as [sx|sx| |sx mx ex]; reflexivity. Qed.

Lemma SFltb_sub_diag (w x : float) :
  SFltb w (S754_zero false) = false -> SFltb w (SFsub prec emax x x) = false.
Proof.
  intros H. destruct (SFsub_diag x) as [[s ->] | ->].
  - rewrite (SFltb_zero_sign w s false). exact H.
  - destruct w; reflexivity.
Qed.

(** What the two tests of the program make of an exact bound: when
    [now - prompt_time <= max_reaction] holds of the exact values, the
    window test passes and the time-out test fails. *)
Lemma exact_in_window (now started max_reaction : float) :
  number now = true -> number started = true -> number max_reaction = true ->
  exact now - exact started <= exact max_reaction ->
  fle (fsub now started) max_reaction = true /\
  fgt (fsub now started) max_reaction = false.
Proof.
  intros Hn Hs Hm Hle.
  pose proof (fsub_le_sound now started max_reaction Hn Hs Hm Hle) as H.
  split; [exact H | apply SFleb_not_gt; exact H].
Qed.

(** A number whose exact value is at least zero is not below zero. *)
Lemma number_not_negative (x : float) :
  number x = true -> 0 <= exact x -> not_negative x.
Proof.
  intros Hx H0. unfold not_negative, fgt. apply SFleb_not_gt.
  apply number_le; [reflexivity | exact Hx | exact H0].
Qed.

(** * Properties of the round engine *)

Lemma random_choice_directions (draw : nat) :
  In (random_choice draw directions) directions.
Proof.
  unfold random_choice. apply nth_In.
  apply Nat.mod_upper_bound. discriminate.
Qed.

Section EngineFacts.

Variable max_reaction : float.

(** *** The two halves of [tick] taken apart *)

Lemma start_round_set now draw st t :
  target st = Some t -> start_round now draw st = st.
Proof. intros H. unfold start_round. rewrite H. reflexivity. Qed.

Lemma start_round_over now draw st :
  lives st <= 0 -> start_round now draw st = st.
Proof.
  intros H. unfold start_round.
  destruct (target st); [reflexivity|].
  destruct (Z.ltb_spec 0 (lives st)); [lia|reflexivity].
Qed.

Lemma check_timeout_idle now st :
  target st = None -> check_timeout max_reaction now st = st.
Proof. intros H. unfold check_timeout. rewrite H. reflexivity. Qed.

Lemma check_timeout_pending now st t :
  target st = Some t ->
  fgt (fsub now (prompt_time st)) max_reaction = false ->
  check_timeout max_reaction now st = st.
Proof.
  intros Ht Hw. unfold check_timeout. rewrite Ht, Hw. reflexivity.
Qed.



Lemma judge_idle now action st :
  target st = None -> judge max_reaction now action st = st.
Proof.
  intros H. unfold judge. rewrite H.
  destruct action; reflexivity.
Qed.

Lemma judge_within now a t st :
  target st = Some t ->
  fle (fsub now (prompt_time st)) max_reaction = true ->
  judged_on_merits a t st (judge max_reaction now (Some a) st).
Proof.
  intros Ht Hw. unfold judge, judged_on_merits. rewrite Ht, Hw.
  destruct (String.eqb_spec a t); simpl; repeat split; intros; try lia;
    congruence.
Qed.

Lemma judge_late now a t st :
  target st = Some t ->
  fle (fsub now (prompt_time st)) max_reaction = false ->
  let st' := judge max_reaction now (Some a) st in
  lives st' = lives st - 1 /\ target st' = None /\
  score st' = score st /\ round_no st' = round_no st.
Proof.
  intros Ht Hw. unfold judge. rewrite Ht, Hw. simpl. auto.
Qed.

(** *** What every state at the top of a pass satisfies *)

Lemma start_round_lives_ok now draw st :
  lives_ok st -> lives_ok (start_round now draw st).
Proof.
  intros [H0 H1]. unfold start_round.
  destruct (target st) eqn:Ht; [split; [assumption | rewrite Ht; assumption]|].
  destruct (Z.ltb_spec 0 (lives st)); split; simpl; try lia;
    try (rewrite Ht; assumption).
Qed.

Lemma check_timeout_lives_ok now st :
  lives_ok st -> lives_ok (check_timeout max_reaction now st).
Proof.
  intros [H0 H1]. unfold check_timeout.
  destruct (target st) eqn:Ht; [|split; [assumption | rewrite Ht; assumption]].
  destruct (fgt _ _).
  - assert (0 < lives st) by (apply H1; discriminate).
    split; simpl; [lia | congruence].
  - split; [assumption | rewrite Ht; assumption].
Qed.

Lemma judge_lives_ok now action st :
  lives_ok st -> lives_ok (judge max_reaction now action st).
Proof.
  intros [H0 H1]. unfold judge.
  destruct action as [a|]; [|split; assumption].
  destruct (target st) as [t|] eqn:Ht; [|split; [assumption | rewrite Ht; assumption]].
  assert (0 < lives st) by (apply H1; discriminate).
  destruct (fle _ _); [destruct (String.eqb a t)|];
    split; simpl; try lia; congruence.
Qed.

Lemma frame_lives_ok now draw drawn banner queued key st st' :
  lives_ok st ->
  frame max_reaction now draw drawn banner queued key st = Next st' ->
  lives_ok st'.
Proof.
  intros Hok. unfold frame.
  assert (Ht : lives_ok (tick max_reaction now draw st))
    by (apply check_timeout_lives_ok, start_round_lives_ok, Hok).
  destruct drawn; [|discriminate].
  destruct (lives (tick max_reaction now draw st) <=? 0).
  - destruct banner; [|discriminate].
    destruct (is_quit key); intros [= <-]. exact Ht.
  - destruct (poll queued key _) as [[quit action] err].
    destruct quit; intros [= <-].
    apply judge_lives_ok. exact Ht.
Qed.

Lemma reachable_lives_ok st : reachable max_reaction st -> lives_ok st.
Proof.
  induction 1 as [pg sp | i st st' _ IH Hf].
  - split; simpl; [lia | congruence].
  - eapply frame_lives_ok; eassumption.
Qed.

Lemma game_over_no_target st :
  lives_ok st -> lives st = 0 -> target st = None.
Proof.
  intros [_ H1] H0. destruct (target st) eqn:Ht; [|reflexivity].
  assert (0 < lives st) by (apply H1; discriminate). lia.
Qed.

End EngineFacts.

Lemma tick_lives (max_reaction now : float) (draw : nat) (st : state) :
  let st1 := tick max_reaction now draw st in
  lives st1 = lives st \/ (lives st1 = lives st - 1 /\ target st1 = None).
Proof.
  unfold tick, check_timeout.
  assert (Hs : lives (start_round now draw st) = lives st).
  { unfold start_round. destruct (target st); [reflexivity|].
    destruct (0 <? lives st); reflexivity. }
  destruct (target (start_round now draw st)); [|left; exact Hs].
  destruct (fgt _ _); simpl; [right | left]; auto.
  split; [congruence | reflexivity].
Qed.

Lemma judge_lives (max_reaction now : float) (action : option string)
      (st : state) :
  let st' := judge max_reaction now action st in
  lives st' = lives st \/ (lives st' = lives st - 1 /\ target st <> None).
Proof.
  unfold judge. destruct action as [a|]; [|left; reflexivity].
  destruct (target st) as [t|]; [|left; reflexivity].
  destruct (fle _ _); [destruct (String.eqb a t)|]; simpl;
    (left; reflexivity) || (right; split; [reflexivity | discriminate]).
Qed.

Lemma run_reachable (max_reaction : float) (inputs : list frame_input) :
  forall st st',
    reachable max_reaction st ->
    run max_reaction inputs st = Next st' ->
    reachable max_reaction st'.
Proof.
  induction inputs as [|i inputs IH]; intros st st' Hr; simpl.
  - intros [= <-]. exact Hr.
  - destruct (frame_on max_reaction i st) as [st1|st1|st1] eqn:Hf;
      [|discriminate|discriminate].
    apply IH. eapply reach_frame; eassumption.
Qed.

Lemma round1_reachable : reachable default_window round1_up.
Proof.
  apply (run_reachable default_window [idle_pass (flt 10)]
                       (initial_state false false)).
  - apply reach_init.
  - vm_compute. reflexivity.
Qed.


(** C1. With a target set and the judgment inside the reaction window
    ([now - prompt_time <= max_reaction]), judging an action clears the
    target, adds exactly 1 to the score and leaves the lives alone when the
    action is the target, and takes exactly 1 life and leaves the score
    alone when it is not; with no target set, judging changes nothing.
    "Inside the window" is taken both ways: as the test the program
    computes on the floats, and as the same inequality on the exact values
    of the clock, the prompt time and the window, which implies the
    former. *)
Theorem judge_correct (max_reaction now : float) (a : string) (st : state) :
  (forall t, target st = Some t ->
             fle (fsub now (prompt_time st)) max_reaction = true ->
             judged_on_merits a t st (judge max_reaction now (Some a) st)) /\
  (forall t, target st = Some t ->
             number now = true -> number (prompt_time st) = true ->
             number max_reaction = true ->
             exact now - exact (prompt_time st) <= exact max_reaction ->
             judged_on_merits a t st (judge max_reaction now (Some a) st)) /\
  (target st = None -> judge max_reaction now (Some a) st = st).
Proof.
  split; [|split].
  - intros t Ht Hw. apply judge_within; assumption.
  - intros t Ht Hn Hp Hm Hw. apply judge_within; [assumption|].
    apply exact_in_window; assumption.
  - apply judge_idle.
Qed.

Lemma judge_correct_witness :
  target round1_up = Some "UP" /\
  fle (fsub (flt 10.3) (prompt_time round1_up)) default_window = true /\
  exact (flt 10.3) - exact (prompt_time round1_up) <= exact default_window /\
  judged_on_merits "UP" "UP" round1_up
    (judge default_window (flt 10.3) (Some "UP") round1_up) /\
  judged_on_merits "DOWN" "UP" round1_up
    (judge default_window (flt 10.3) (Some "DOWN") round1_up) /\
  (target (initial_state false false) = None /\
   judge default_window (flt 10.3) (Some "UP") (initial_state false false)
   = initial_state false false).
Proof.
  assert (Hw : fle (fsub (flt 10.3) (prompt_time round1_up)) default_window
               = true) by (vm_compute; reflexivity).
  assert (He : exact (flt 10.3) - exact (prompt_time round1_up)
               <= exact default_window) by (vm_compute; discriminate).
  split; [reflexivity|]. split; [exact Hw|]. split; [exact He|].
  split; [|split].
  - exact (proj1 (judge_correct default_window (flt 10.3) "UP" round1_up)
                 "UP" eq_refl Hw).
  - exact (proj1 (proj2 (judge_correct default_window (flt 10.3) "DOWN"
                                       round1_up))
                 "UP" eq_refl
                 ltac:(vm_compute; reflexivity) ltac:(vm_compute; reflexivity)
                 ltac:(vm_compute; reflexivity) He).
  - split; [reflexivity|].
    exact (proj2 (proj2 (judge_correct default_window (flt 10.3) "UP"
                                       (initial_state false false))) eq_refl).
Defined.




(** C3. In a state with no target and at least one life left, the tick
    starts exactly one round: [round_no] grows by exactly 1, the target
    becomes one of UP, DOWN, LEFT, RIGHT, and the deadline of the prompt is
    [now] plus the reaction window.  This is what the round-start step
    does whatever the window; with a window that is not below zero, as the
    configuration requires, the time-out check of the same tick leaves the
    new round alone, so it is the state after the whole tick.  "Not below
    zero" is taken both ways: [0 > max_reaction] is false on the floats, or
    the window is a number whose exact value is at least 0. *)
Theorem tick_starts_round (max_reaction now : float) (draw : nat) (st : state) :
  target st = None -> 0 < lives st ->
  (let st' := start_round now draw st in
   round_no st' = round_no st + 1 /\
   (exists d, target st' = Some d /\ In d directions) /\
   prompt_deadline max_reaction st' = exact now + exact max_reaction /\
   lives st' = lives st /\ score st' = score st) /\
  (not_negative max_reaction \/
   (number max_reaction = true /\ 0 <= exact max_reaction) ->
   tick max_reaction now draw st = start_round now draw st).
Proof.
  intros Ht Hl.
  assert (E : start_round now draw st =
              {| score := score st;
                 lives := lives st;
                 round_no := round_no st + 1;
                 target := Some (random_choice draw directions);
                 prompt_time := now;
                 last_info_msg :=
                   "Round " ++ str (round_no st + 1) ++ "! Press "
                   ++ random_choice draw directions ++ "!";
                 last_error_msg := last_error_msg st |}%string).
  { unfold start_round. rewrite Ht.
    apply Z.ltb_lt in Hl. rewrite Hl. reflexivity. }
  split.
  - rewrite E. cbv zeta. unfold prompt_deadline.
    cbn [score lives round_no target prompt_time]. repeat split.
    exists (random_choice draw directions).
    split; [reflexivity | apply random_choice_directions].
  - intros Hm.
    assert (Hn : not_negative max_reaction).
    { destruct Hm as [Hm | [Hm H0]];
        [exact Hm | apply number_not_negative; assumption]. }
    unfold tick. rewrite E.
    eapply check_timeout_pending; [reflexivity|].
    cbn [prompt_time]. apply SFltb_sub_diag. exact Hn.
Qed.

Lemma tick_starts_round_witness :
  (let st' := start_round (flt 10) 2 (initial_state false false) in
   round_no st' = 1 /\
   (exists d, target st' = Some d /\ In d directions) /\
   prompt_deadline default_window st' = exact (flt 10) + exact default_window /\
   lives st' = 3 /\ score st' = 0) /\
  tick default_window (flt 10) 2 (initial_state false false)
  = start_round (flt 10) 2 (initial_state false false).
Proof.
  destruct (tick_starts_round default_window (flt 10) 2
                              (initial_state false false)
                              eq_refl eq_refl) as [A B].
  split; [exact A|].
  apply B. right. split; [vm_compute; reflexivity | vm_compute; discriminate].
Defined.

(** C9. A tick in a state whose target is set and whose window has not
    expired changes nothing: target, [round_no] and lives stay as they are
    (and so does the rest of the state, whatever the number of lives).
    "Not expired" is taken both ways: as the time-out test of the program
    failing, and as [now <= prompt_deadline] on the exact values of the
    clock, the prompt time and the window, which implies the former. *)
Theorem tick_idempotent (max_reaction now : float) (draw : nat) (t : string)
        (st : state) :
  target st = Some t ->
  (fgt (fsub now (prompt_time st)) max_reaction = false ->
   tick max_reaction now draw st = st /\
   target (tick max_reaction now draw st) = target st /\
   round_no (tick max_reaction now draw st) = round_no st /\
   lives (tick max_reaction now draw st) = lives st) /\
  (number now = true -> number (prompt_time st) = true ->
   number max_reaction = true ->
   exact now <= prompt_deadline max_reaction st ->
   tick max_reaction now draw st = st /\
   target (tick max_reaction now draw st) = target st /\
   round_no (tick max_reaction now draw st) = round_no st /\
   lives (tick max_reaction now draw st) = lives st).
Proof.
  intros Ht.
  assert (G : fgt (fsub now (prompt_time st)) max_reaction = false ->
              tick max_reaction now draw st = st /\
              target (tick max_reaction now draw st) = target st /\
              round_no (tick max_reaction now draw st) = round_no st /\
              lives (tick max_reaction now draw st) = lives st).
  { intros Hw.
    assert (E : tick max_reaction now draw st = st).
    { unfold tick. rewrite (start_round_set now draw st t Ht).
      apply (check_timeout_pending max_reaction now st t Ht Hw). }
    rewrite E. auto. }
  split; [exact G|].
  intros Hn Hp Hm Hd. apply G.
  apply exact_in_window; try assumption.
  unfold prompt_deadline in Hd. lia.
Qed.

Lemma tick_idempotent_witness :
  fgt (fsub (flt 11) (prompt_time round1_up)) default_window = false /\
  exact (flt 11) <= prompt_deadline default_window round1_up /\
  tick default_window (flt 11) 3 round1_up = round1_up /\
  target (tick default_window (flt 11) 3 round1_up) = target round1_up /\
  round_no (tick default_window (flt 11) 3 round1_up) = round_no round1_up /\
  lives (tick default_window (flt 11) 3 round1_up) = lives round1_up.
Proof.
  assert (Hd : exact (flt 11) <= prompt_deadline default_window round1_up)
    by (vm_compute; discriminate).
  split; [vm_compute; reflexivity|]. split; [exact Hd|].
  exact (proj2 (tick_idempotent default_window (flt 11) 3 "UP" round1_up
                                eq_refl)
               ltac:(vm_compute; reflexivity) ltac:(vm_compute; reflexivity)
               ltac:(vm_compute; reflexivity) Hd).
Defined.




Lemma tick_game_over (max_reaction now : float) (draw : nat) (st : state) :
  lives st <= 0 -> target st = None ->
  tick max_reaction now draw st = st.
Proof.
  intros Hl Ht. unfold tick.
  rewrite (start_round_over now draw st Hl).
  apply check_timeout_idle. exact Ht.
Qed.

Lemma frame_game_over (max_reaction now : float) (draw : nat)
      (drawn banner : bool) (queued : list InputEvent) (key : Z) (st : state) :
  lives_ok st -> lives st = 0 ->
  frame max_reaction now draw drawn banner queued key st
  = (if drawn && banner
     then if is_quit key then Exit st else Next st
     else Raised st).
Proof.
  intros Hok Hl.
  pose proof (game_over_no_target st Hok Hl) as Ht.
  unfold frame.
  rewrite (tick_game_over max_reaction now draw st); [|lia|exact Ht].
  rewrite Hl. destruct drawn, banner; reflexivity.
Qed.

(** C4. A state of the loop with no life left is final: a tick and a
    judgment leave it as it is ([round_no], score, lives and target
    included), and a pass of the loop ignores the queue and every key but
    the quit key, on which it leaves the loop; a pass in which a drawing
    call raises ends the loop with the same state. *)
Theorem game_over_terminal (max_reaction : float) (st : state) :
  reachable max_reaction st -> lives st = 0 ->
  forall now draw drawn banner queued key action,
    tick max_reaction now draw st = st /\
    judge max_reaction now action st = st /\
    frame max_reaction now draw drawn banner queued key st
    = (if drawn && banner
       then if is_quit key then Exit st else Next st
       else Raised st).
Proof.
  intros Hr Hl now draw drawn banner queued key action.
  pose proof (reachable_lives_ok max_reaction st Hr) as Hok.
  pose proof (game_over_no_target st Hok Hl) as Ht.
  split; [apply tick_game_over; [lia | exact Ht]|].
  split; [apply judge_idle; exact Ht|].
  apply frame_game_over; assumption.
Qed.

Lemma game_over_reachable : reachable default_window game_over_state.
Proof.
  apply (run_reachable default_window three_timeouts
                       (initial_state false false)).
  - apply reach_init.
  - vm_compute. reflexivity.
Qed.

Lemma game_over_terminal_witness :
  reachable default_window game_over_state /\
  lives game_over_state = 0 /\
  tick default_window (flt 7) 1 game_over_state = game_over_state /\
  judge default_window (flt 7) (Some "UP") game_over_state = game_over_state /\
  frame default_window (flt 7) 1 true true [BTN "UP"] KEY_UP game_over_state
  = Next game_over_state /\
  frame default_window (flt 7) 1 true true [BTN "UP"] 113 game_over_state
  = Exit game_over_state.
Proof.
  pose proof (game_over_terminal default_window game_over_state
                                 game_over_reachable eq_refl) as G.
  pose proof (G (flt 7) 1%nat true true [BTN "UP"] KEY_UP (Some "UP")) as H.
  pose proof (G (flt 7) 1%nat true true [BTN "UP"] 113 (Some "UP")) as H'.
  split; [exact game_over_reachable|].
  split; [reflexivity|].
  split; [exact (proj1 H)|].
  split; [exact (proj1 (proj2 H))|].
  split; [exact (proj2 (proj2 H)) | exact (proj2 (proj2 H'))].
Defined.

(** C10. In every state the loop can reach the lives are at least 0, and a
    pass with no life left takes none.  A pass takes at most one life:
    when the time-out check of the pass takes one it clears the target, so
    the judgment of the same pass, made at the same [now], takes none. *)
Theorem one_life_per_frame (max_reaction : float) (st : state) :
  (reachable max_reaction st ->
   0 <= lives st /\
   (lives st = 0 ->
    forall now draw drawn banner queued key,
      lives (state_of (frame max_reaction now draw drawn banner queued key st))
      = 0)) /\
  (forall now draw drawn banner queued key,
     let st1 := tick max_reaction now draw st in
     let st' :=
       state_of (frame max_reaction now draw drawn banner queued key st) in
     lives st - 1 <= lives st' <= lives st /\
     (lives st1 = lives st - 1 ->
      target st1 = None /\ lives st' = lives st1)).
Proof.
  split.
  - intros Hr.
    pose proof (reachable_lives_ok max_reaction st Hr) as Hok.
    split; [apply Hok|].
    intros Hl now draw drawn banner queued key.
    rewrite (frame_game_over max_reaction now draw drawn banner queued key st
                             Hok Hl).
    destruct (drawn && banner); [destruct (is_quit key)|]; exact Hl.
  - intros now draw drawn banner queued key. cbv zeta.
    pose proof (tick_lives max_reaction now draw st) as Ht. cbv zeta in Ht.
    unfold frame.
    set (st1 := tick max_reaction now draw st) in *.
    assert (Hstop : lives st - 1 <= lives st1 <= lives st /\
                    (lives st1 = lives st - 1 ->
                     target st1 = None /\ lives st1 = lives st1)).
    { split; [lia|]. intros E. split; [|reflexivity].
      destruct Ht as [Ht | [_ Ht]]; [lia | exact Ht]. }
    destruct drawn; [|exact Hstop].
    destruct (lives st1 <=? 0).
    + destruct banner; [destruct (is_quit key)|]; exact Hstop.
    + destruct (poll queued key (last_error_msg st1)) as [[quit action] err].
      destruct quit; [exact Hstop|]. cbn [state_of].
      pose proof (judge_lives max_reaction now action (set_error err st1))
        as Hj.
      cbv zeta in Hj. simpl in Hj.
      destruct Ht as [Ht | [Ht Hn]].
      * split; [lia|]. intros E. lia.
      * rewrite Hn in Hj.
        destruct Hj as [Hj | [_ Hj]]; [|congruence].
        split; [lia|]. intros _. split; [exact Hn | exact Hj].
Qed.

Lemma one_life_per_frame_witness :
  0 <= lives game_over_state /\
  lives (state_of (frame default_window (flt 7) 1 true true [BTN "UP"] KEY_UP
                         game_over_state))
  = 0 /\
  (let st' := state_of (frame default_window (flt 12) 1 true true
                              [BTN "DOWN"] KEY_LEFT round1_up) in
   lives round1_up - 1 <= lives st' <= lives round1_up).
Proof.
  destruct (one_life_per_frame default_window game_over_state) as [A _].
  destruct (A game_over_reachable) as [A1 A2].
  split; [exact A1|].
  split; [exact (A2 eq_refl (flt 7) 1%nat true true [BTN "UP"] KEY_UP)|].
  destruct (one_life_per_frame default_window round1_up) as [_ B].
  exact (proj1 (B (flt 12) 1%nat true true [BTN "DOWN"] KEY_LEFT)).
Defined.

(** * Properties of the input arbitration *)

Lemma last_cons_default {A : Type} (x : A) (l : list A) (d d' : A) :
  last (x :: l) d = last (x :: l) d'.
Proof.
  revert x. induction l as [|y l IH]; intros x; [reflexivity|].
  change (last (y :: l) d = last (y :: l) d'). apply IH.
Qed.

Lemma drain_buttons (queued : list InputEvent) :
  forall action error_msg,
    fst (drain queued action error_msg)
    = last (map Some (buttons queued)) action.
Proof.
  induction queued as [|e queued IH]; intros action error_msg; simpl.
  - reflexivity.
  - destruct e as [p|p]; rewrite IH; [|reflexivity].
    destruct (buttons queued) as [|b bs]; [reflexivity|].
    change (map Some (p :: b :: bs)) with (Some p :: map Some (b :: bs)).
    change (last (map Some (b :: bs)) (Some p)
            = last (map Some (b :: bs)) action).
    apply last_cons_default.
Qed.

Lemma keyboard_action (key : Z) (action : option string) :
  snd (keyboard key action)
  = match key_direction key with
    | Some d => Some d
    | None => action
    end.
Proof.
  unfold keyboard, key_direction, is_quit, NO_KEY, KEY_UP, KEY_DOWN,
    KEY_LEFT, KEY_RIGHT.
  repeat match goal with
         | |- context [?a =? ?b] => destruct (Z.eqb_spec a b); simpl; try lia
         end; reflexivity.
Qed.

Lemma polled_action_eq (queued : list InputEvent) (key : Z) :
  polled_action queued key
  = match key_direction key with
    | Some d => Some d
    | None => last (map Some (buttons queued)) None
    end.
Proof.
  unfold polled_action, poll.
  pose proof (drain_buttons queued None "") as Hd.
  destruct (drain queued None "") as [action err]. simpl in Hd.
  pose proof (keyboard_action key action) as Hk.
  destruct (keyboard key action) as [quit action']. simpl in *.
  rewrite Hk, Hd. reflexivity.
Qed.

(** C5. One poll of the inputs leaves in [action]: the direction of the
    key, if the key read is an arrow key, whatever is queued; otherwise
    the payload of the last [BTN] event of the queue (the last one, not
    the first); otherwise, with no [BTN] event queued, nothing. *)
Theorem poll_arbitration (queued : list InputEvent) (key : Z) :
  (forall d, key_direction key = Some d -> polled_action queued key = Some d) /\
  (key_direction key = None ->
   forall before p after,
     queued = before ++ BTN p :: after -> buttons after = [] ->
     polled_action queued key = Some p) /\
  (key_direction key = None -> buttons queued = [] ->
   polled_action queued key = None).
Proof.
  rewrite polled_action_eq. split; [|split].
  - intros d Hd. rewrite Hd. reflexivity.
  - intros Hk before p after -> Hafter. rewrite Hk.
    assert (E : buttons (before ++ BTN p :: after) = buttons before ++ [p]).
    { induction before as [|e before IH]; simpl.
      - rewrite Hafter. reflexivity.
      - destruct e; simpl; rewrite IH; reflexivity. }
    rewrite E, map_app. simpl. apply last_last.
  - intros Hk Hb. rewrite Hk, Hb. reflexivity.
Qed.

Lemma poll_arbitration_witness :
  polled_action [BTN "UP"] KEY_DOWN = Some "DOWN" /\
  polled_action [BTN "UP"; BTN "LEFT"] NO_KEY = Some "LEFT" /\
  polled_action [ERROR "lost"] NO_KEY = None.
Proof.
  split; [|split].
  - exact (proj1 (poll_arbitration [BTN "UP"] KEY_DOWN) "DOWN" eq_refl).
  - exact (proj1 (proj2 (poll_arbitration [BTN "UP"; BTN "LEFT"] NO_KEY))
                 eq_refl [BTN "UP"] "LEFT" [] eq_refl eq_refl).
  - exact (proj2 (proj2 (poll_arbitration [ERROR "lost"] NO_KEY))
                 eq_refl eq_refl).
Defined.

(** * Properties of the listener *)

(** C7. When the port cannot be opened, the listener makes exactly one
    attempt to open it, puts exactly one [ERROR] event on the queue and
    returns: nothing is read and no other event is put, whatever the port
    would have delivered. *)
Theorem open_failure_one_error (unicode_upper : N -> text) (port e : string)
        (reads : list read_result) :
  let trace := serial_reader unicode_upper true port (OpenFailed e) reads in
  trace = [TryOpen;
           Put (ERROR ("Failed to open serial port " ++ port ++ ": " ++ e)%string)]
  /\ published trace
     = [ERROR ("Failed to open serial port " ++ port ++ ": " ++ e)%string].
Proof. split; reflexivity. Qed.

(** *** The line loop, one step at a time *)

Lemma split_lines_done (uu : N -> text) (buf : list byte) :
  split_newline buf = None -> split_lines uu buf = ([], buf).
Proof.
  intros H. rewrite (split_lines_unfold_eq uu buf).
  unfold split_lines_unfold, inspect.
  enough (G : forall o (E : split_newline buf = o),
             o = None ->
             split_lines_unfold_clause_1 uu buf (exist _ o E) = ([], buf))
    by (apply G; exact H).
  intros o E ->. reflexivity.
Qed.

Lemma split_lines_more (uu : N -> text) (buf line rest : list byte) :
  split_newline buf = Some (line, rest) ->
  split_lines uu buf
  = (line_puts uu line ++ fst (split_lines uu rest),
     snd (split_lines uu rest)).
Proof.
  intros H. rewrite (split_lines_unfold_eq uu buf).
  unfold split_lines_unfold, inspect.
  enough (G : forall o (E : split_newline buf = o),
             o = Some (line, rest) ->
             split_lines_unfold_clause_1 uu buf (exist _ o E)
             = (line_puts uu line ++ fst (split_lines uu rest),
                snd (split_lines uu rest)))
    by (apply G; exact H).
  intros o E ->. reflexivity.
Qed.

Lemma no_newline_app (a b : list byte) :
  no_newline (a ++ b) = no_newline a && no_newline b.
Proof. apply forallb_app. Qed.

Lemma split_newline_none (l : list byte) :
  no_newline l = true -> split_newline l = None.
Proof.
  induction l as [|b l IH]; simpl; [reflexivity|].
  destruct (Byte.eqb b newline); simpl; [discriminate|].
  intros H. rewrite (IH H). reflexivity.
Qed.

Lemma split_newline_line (l s : list byte) :
  no_newline l = true -> split_newline (l ++ newline :: s) = Some (l, s).
Proof.
  induction l as [|b l IH]; simpl.
  - reflexivity.
  - destruct (Byte.eqb b newline); simpl; [discriminate|].
    intros H. rewrite (IH H). reflexivity.
Qed.

Lemma stream_of_cons (l : list byte) (lines : list (list byte))
      (partial : list byte) :
  stream_of (l :: lines) partial = l ++ newline :: stream_of lines partial.
Proof.
  unfold stream_of. simpl. rewrite <- !app_assoc. reflexivity.
Qed.

Lemma split_lines_stream (uu : N -> text) (lines : list (list byte))
      (partial : list byte) :
  forallb no_newline lines = true -> no_newline partial = true ->
  split_lines uu (stream_of lines partial)
  = (flat_map (line_puts uu) lines, partial).
Proof.
  intros Hl Hp. induction lines as [|l lines IH].
  - apply split_lines_done, split_newline_none. exact Hp.
  - simpl in Hl. apply andb_true_iff in Hl as [Hl1 Hl2].
    rewrite stream_of_cons.
    rewrite (split_lines_more uu _ l (stream_of lines partial))
      by (apply split_newline_line; exact Hl1).
    rewrite (IH Hl2). reflexivity.
Qed.

Lemma stream_of_no_newline (lines : list (list byte)) (partial : list byte) :
  no_newline (stream_of lines partial) = true ->
  lines = [] /\ no_newline partial = true.
Proof.
  destruct lines as [|l lines]; [auto|].
  rewrite stream_of_cons, no_newline_app. simpl.
  rewrite andb_false_r. discriminate.
Qed.

(** A stream cut in two: the first piece is made of the first lines and
    the beginning of another. *)
Lemma stream_of_cut (lines : list (list byte)) :
  forall p q partial,
    forallb no_newline lines = true -> no_newline partial = true ->
    p ++ q = stream_of lines partial ->
    exists l1 r1 l2,
      p = stream_of l1 r1 /\ no_newline r1 = true /\
      lines = l1 ++ l2 /\ r1 ++ q = stream_of l2 partial.
Proof.
  induction lines as [|l lines IH]; intros p q partial Hl Hp E.
  - exists [], p, []. repeat split; [|exact E].
    unfold stream_of in E. simpl in E. rewrite <- E, no_newline_app in Hp.
    apply andb_true_iff in Hp. apply Hp.
  - simpl in Hl. apply andb_true_iff in Hl as [Hl1 Hl2].
    rewrite stream_of_cons in E.
    apply app_eq_app in E as [m [[E1 E2] | [E1 E2]]].
    + destruct m as [|x m].
      * exists [], p, (l :: lines). rewrite app_nil_r in E1. subst p.
        repeat split; [exact Hl1|].
        rewrite stream_of_cons. simpl in E2. rewrite <- E2. reflexivity.
      * injection E2 as <- E2. symmetry in E2.
        destruct (IH m q partial Hl2 Hp E2) as (l1 & r1 & l2 & A & B & C & D).
        exists (l :: l1), r1, l2. repeat split.
        -- rewrite stream_of_cons, <- A. exact E1.
        -- exact B.
        -- simpl. rewrite C. reflexivity.
        -- exact D.
    + exists [], p, (l :: lines). repeat split.
      * rewrite E1, no_newline_app in Hl1.
        apply andb_true_iff in Hl1. apply Hl1.
      * rewrite stream_of_cons, E1, E2, <- app_assoc. reflexivity.
Qed.

Lemma published_app (a b : list action) :
  published (a ++ b) = published a ++ published b.
Proof.
  induction a as [|x a IH]; simpl; [reflexivity|].
  destruct x; simpl; rewrite IH; reflexivity.
Qed.

Lemma published_line_puts (uu : N -> text) (lines : list (list byte)) :
  published (flat_map (line_puts uu) lines)
  = map BTN (tokens_of (line_text uu) lines).
Proof.
  unfold tokens_of. induction lines as [|l lines IH]; simpl; [reflexivity|].
  rewrite published_app, map_app, IH. unfold line_puts.
  destruct (lookup_valid (line_text uu l)); reflexivity.
Qed.

Lemma tokens_of_app (f : list byte -> text) (a b : list (list byte)) :
  tokens_of f (a ++ b) = tokens_of f a ++ tokens_of f b.
Proof. unfold tokens_of. apply flat_map_app. Qed.

(** The loop started with a buffer that holds no newline. *)
Lemma reader_loop_stream (uu : N -> text) (chunks : list (list byte)) :
  forall buf lines partial,
    no_newline buf = true ->
    forallb no_newline lines = true -> no_newline partial = true ->
    buf ++ List.concat chunks = stream_of lines partial ->
    let r := reader_loop uu (map Data chunks) buf in
    published (fst r) = map BTN (tokens_of (line_text uu) lines) /\
    snd r = partial.
Proof.
  induction chunks as [|d chunks IH]; intros buf lines partial Hb Hl Hp E.
  - simpl in *. rewrite app_nil_r in E. rewrite E in Hb.
    apply stream_of_no_newline in Hb as [-> _].
    split; [reflexivity | exact E].
  - destruct d as [|b d].
    + simpl. apply (IH buf lines partial Hb Hl Hp). exact E.
    + rewrite concat_cons, app_assoc in E.
      destruct (stream_of_cut lines _ _ partial Hl Hp E)
        as (l1 & r1 & l2 & A & B & C & D).
      subst lines. rewrite forallb_app in Hl.
      apply andb_true_iff in Hl as [Hl1 Hl2].
      destruct (IH r1 l2 partial B Hl2 Hp D) as [I1 I2].
      cbn [map reader_loop fst snd]. cbv zeta.
      rewrite A, (split_lines_stream uu l1 r1 Hl1 B).
      cbn [fst snd published]. split; [|exact I2].
      rewrite published_app, published_line_puts, I1, tokens_of_app, map_app.
      reflexivity.
Qed.

(** C8, as the code has it.  Whatever the chunks, if the bytes fed so far
    are the lines [lines], each closed by a newline, followed by a piece
    [partial] with no newline, then the tokens put on the queue are, in
    order, those lines whose text, after trimming the surrounding
    whitespace, decoding with the malformed bytes dropped and upper-casing,
    is one of UP, DOWN, LEFT, RIGHT; the other lines put nothing; and
    [partial] is what the buffer holds for the next chunk. *)
Theorem framer_tokens (unicode_upper : N -> text) (chunks : list (list byte))
        (lines : list (list byte)) (partial : list byte) :
  forallb no_newline lines = true -> no_newline partial = true ->
  List.concat chunks = stream_of lines partial ->
  feed_chunks unicode_upper chunks
  = (map BTN (tokens_of (line_text unicode_upper) lines), partial).
Proof.
  intros Hl Hp E. unfold feed_chunks.
  destruct (reader_loop_stream unicode_upper chunks [] lines partial
                               eq_refl Hl Hp E) as [A B].
  cbv zeta in A, B. rewrite A, B. reflexivity.
Qed.

Lemma framer_tokens_witness :
  feed_chunks caseless
    [bytes "u"; []; [x70; x0a; x66; x6f; x6f; x0a; x20; x6c; x65];
     [x66; x74; x20; x0d; x0a; x72; x69]]
  = ([BTN "UP"; BTN "LEFT"], bytes "ri").
Proof.
  apply (framer_tokens caseless
           [bytes "u"; []; [x70; x0a; x66; x6f; x6f; x0a; x20; x6c; x65];
            [x66; x74; x20; x0d; x0a; x72; x69]]
           [bytes "up"; bytes "foo"; [x20; x6c; x65; x66; x74; x20; x0d]]
           (bytes "ri")); reflexivity.
Defined.

Lemma dropped_byte_token (unicode_upper : N -> text) :
  feed_chunks unicode_upper [[x55; xff; x50; x0a]] = ([BTN "UP"], []).
Proof. vm_compute. reflexivity. Qed.

(** C8, as it is worded.  With the malformed bytes substituted instead of
    dropped, the line [U \xff P] is not a token; the listener puts UP for
    it. *)
Lemma framer_substitution_counterexample :
  forallb no_newline [[x55; xff; x50]] = true /\
  no_newline [] = true /\
  List.concat [[x55; xff; x50; x0a]] = stream_of [[x55; xff; x50]] [] /\
  feed_chunks caseless [[x55; xff; x50; x0a]] = ([BTN "UP"], []) /\
  feed_chunks caseless [[x55; xff; x50; x0a]]
  <> (map BTN (tokens_of (spec_line_text caseless) [[x55; xff; x50]]), []).
Proof.
  repeat split; try reflexivity.
  vm_compute. discriminate.
Qed.

(** * The scenario of the specification, run *)

Example scenario_run :
  run default_window scenario (initial_state false false)
  = Next {| score := 1;
            lives := 0;
            round_no := 4;
            target := None;
            prompt_time := flt 13.41;
            last_info_msg := "Too slow! It was UP.";
            last_error_msg := "" |}.
Proof. vm_compute. reflexivity. Qed.

Example scenario_then_quit :
  run default_window
      (scenario ++ [{| in_now := flt 16; in_draw := 0%nat; in_drawn := true;
                       in_banner := true; in_queued := []; in_key := 113 |}])
      (initial_state false false)
  = Exit {| score := 1;
            lives := 0;
            round_no := 4;
            target := None;
            prompt_time := flt 13.41;
            last_info_msg := "Too slow! It was UP.";
            last_error_msg := "" |}.
Proof. vm_compute. reflexivity. Qed.

(** The floats of the examples, bit for bit. *)
Example float_literals :
  flt 0.1 = S754_finite false 7205759403792794 (-56) /\
  flt 1.6 = S754_finite false 7205759403792794 (-52) /\
  flt 1.5 = S754_finite false 6755399441055744 (-52) /\
  flt 0 = fzero.
Proof. vm_compute. auto. Qed.

(** A window below zero, which the configuration rules out, would have the
    tick that starts a round time it out at once. *)
Example negative_window_tick :
  let st := tick (flt (-1)) (flt 10) 0 (initial_state false false) in
  target st = None /\ lives st = 2 /\ round_no st = 1.
Proof. vm_compute. auto. Qed.

(** With [--reaction-time nan] no round ever times out, and every action
    is judged too late: the pass that reads the right key takes a life. *)
Example nan_window_pass :
  tick S754_nan (flt 99) 0 round1_up = round1_up /\
  frame S754_nan (flt 10.3) 0 true true [] KEY_UP round1_up
  = Next {| score := 0;
            lives := 2;
            round_no := 1;
            target := None;
            prompt_time := flt 10;
            last_info_msg := "Too late! You pressed UP, but the timer ran out.";
            last_error_msg := "" |}.
Proof. vm_compute. auto. Qed.

(** A pass whose drawing raises ends the loop at once, whatever is queued
    or pressed. *)
Example drawing_error_pass :
  run default_window
      [ {| in_now := flt 10.3; in_draw := 0%nat; in_drawn := false;
           in_banner := true; in_queued := [BTN "UP"]; in_key := 113 |};
        idle_pass (flt 11) ]
      round1_up
  = Raised round1_up.
Proof. vm_compute. reflexivity. Qed.

(** * Further properties of the game loop *)

Lemma start_round_accounted (now : float) (draw : nat) (st : state) :
  accounted st -> accounted (start_round now draw st).
Proof.
  unfold accounted, pending, start_round. intros (A & B & C).
  destruct (target st) eqn:Et; [rewrite Et; auto|].
  destruct (0 <? lives st); cbn [score lives round_no target]; [|rewrite Et; auto].
  repeat split; lia.
Qed.

Lemma check_timeout_accounted (max_reaction now : float) (st : state) :
  accounted st -> accounted (check_timeout max_reaction now st).
Proof.
  unfold accounted, pending, check_timeout. intros (A & B & C).
  destruct (target st) eqn:Et; [|rewrite Et; auto].
  destruct (fgt _ _); cbn [score lives round_no target]; [|rewrite Et; auto].
  repeat split; lia.
Qed.

Lemma judge_accounted (max_reaction now : float) (action : option string)
      (st : state) :
  accounted st -> accounted (judge max_reaction now action st).
Proof.
  unfold accounted, pending, judge. intros (A & B & C).
  destruct action as [a|]; [|auto].
  destruct (target st) as [t|] eqn:Et; [|rewrite Et; auto].
  destruct (fle _ _); [destruct (String.eqb a t)|]; cbn [score lives round_no target];
    repeat split; lia.
Qed.

Lemma frame_accounted (max_reaction now : float) (draw : nat)
      (drawn banner : bool) (queued : list InputEvent) (key : Z) (st : state) :
  accounted st ->
  accounted (state_of (frame max_reaction now draw drawn banner queued key st)).
Proof.
  intros H. unfold frame.
  assert (Ht : accounted (tick max_reaction now draw st))
    by (apply check_timeout_accounted, start_round_accounted, H).
  destruct drawn; [|exact Ht].
  destruct (lives (tick max_reaction now draw st) <=? 0).
  - destruct banner; [destruct (is_quit key)|]; exact Ht.
  - destruct (poll queued key _) as [[quit action] err].
    assert (Hs : accounted (set_error err (tick max_reaction now draw st)))
      by exact Ht.
    destruct quit; simpl; [exact Hs | apply judge_accounted, Hs].
Qed.

Lemma reachable_accounted (max_reaction : float) (st : state) :
  reachable max_reaction st -> accounted st.
Proof.
  induction 1 as [pg sp | i st st' _ IH Hf].
  - unfold accounted, pending. simpl. lia.
  - unfold frame_on in Hf.
    pose proof (frame_accounted max_reaction (in_now i) (in_draw i)
                  (in_drawn i) (in_banner i) (in_queued i) (in_key i) st IH)
      as H.
    rewrite Hf in H. exact H.
Qed.

(** X1. Round accounting.  In every state the loop reaches, each round
    started so far is either still waiting for its answer, or was scored,
    or cost a life: [round_no = score + (3 - lives) + pending]; the score
    is never negative and the lives never exceed 3.  So when the game is
    over exactly three rounds were lost: [round_no = score + 3]. *)
Theorem rounds_accounted (max_reaction : float) (st : state) :
  reachable max_reaction st ->
  round_no st = score st + (3 - lives st) + pending st /\
  0 <= score st /\ 0 <= lives st <= 3 /\
  (lives st = 0 -> round_no st = score st + 3).
Proof.
  intros Hr.
  destruct (reachable_accounted max_reaction st Hr) as (A & B & C).
  destruct (reachable_lives_ok max_reaction st Hr) as [D E].
  repeat split; try assumption.
  intros Hl. unfold pending in A.
  destruct (target st) eqn:Et; [|lia].
  assert (0 < lives st) by (apply E; discriminate). lia.
Qed.

Lemma rounds_accounted_witness :
  round_no game_over_state
  = score game_over_state + (3 - lives game_over_state)
    + pending game_over_state /\
  0 <= score game_over_state /\ 0 <= lives game_over_state <= 3 /\
  round_no game_over_state = score game_over_state + 3.
Proof.
  destruct (rounds_accounted default_window game_over_state
                             game_over_reachable) as (A & B & C & D).
  split; [exact A|]. split; [exact B|]. split; [exact C|].
  exact (D eq_refl).
Defined.

Lemma frame_target_in_directions (max_reaction now : float) (draw : nat)
      (drawn banner : bool) (queued : list InputEvent) (key : Z) (st : state) :
  target_in_directions st ->
  target_in_directions
    (state_of (frame max_reaction now draw drawn banner queued key st)).
Proof.
  intros H.
  assert (Hs : target_in_directions (start_round now draw st)).
  { intros t. destruct (target st) as [t0|] eqn:Et.
    - rewrite (start_round_set now draw st t0 Et). apply H.
    - unfold start_round. rewrite Et. destruct (0 <? lives st).
      + cbn [target]. intros [= <-]. apply random_choice_directions.
      + apply H. }
  assert (Ht : target_in_directions (tick max_reaction now draw st)).
  { intros t. unfold tick, check_timeout.
    destruct (target (start_round now draw st)) as [t0|] eqn:Et.
    - destruct (fgt _ _); cbn [target]; [discriminate | apply Hs].
    - apply Hs. }
  unfold frame.
  destruct drawn; [|exact Ht].
  destruct (lives (tick max_reaction now draw st) <=? 0).
  - destruct banner; [destruct (is_quit key)|]; exact Ht.
  - destruct (poll queued key _) as [[quit action] err].
    destruct quit; cbn [state_of]; [exact Ht|].
    intros t. unfold judge.
    destruct action as [a|]; [|apply Ht].
    change (target (set_error err (tick max_reaction now draw st)))
      with (target (tick max_reaction now draw st)).
    destruct (target (tick max_reaction now draw st)) as [t0|] eqn:Et.
    + destruct (fle _ _); [destruct (String.eqb a t0)|];
        cbn [target]; discriminate.
    + cbn [target set_error]. rewrite Et. discriminate.
Qed.

(** X2. In every state the loop reaches, the target, when one is set, is
    one of the four directions. *)
Theorem target_is_a_direction (max_reaction : float) (st : state) (t : string) :
  reachable max_reaction st -> target st = Some t -> In t directions.
Proof.
  intros Hr. revert t.
  change (target_in_directions st).
  induction Hr as [pg sp | i st st' _ IH Hf].
  - intros t; simpl; discriminate.
  - unfold frame_on in Hf.
    pose proof (frame_target_in_directions max_reaction (in_now i)
                  (in_draw i) (in_drawn i) (in_banner i) (in_queued i)
                  (in_key i) st IH) as H.
    rewrite Hf in H. exact H.
Qed.

Lemma target_is_a_direction_witness :
  reachable default_window round1_up /\
  target round1_up = Some "UP" /\
  In "UP" directions.
Proof.
  split; [exact round1_reachable|]. split; [reflexivity|].
  apply (target_is_a_direction default_window round1_up "UP").
  - exact round1_reachable.
  - reflexivity.
Defined.

Lemma tick_unchanged_fields (max_reaction now : float) (draw : nat)
      (st : state) :
  let st1 := tick max_reaction now draw st in
  score st1 = score st /\ last_error_msg st1 = last_error_msg st /\
  round_no st <= round_no st1 <= round_no st + 1.
Proof.
  unfold tick, check_timeout.
  assert (Hs : score (start_round now draw st) = score st /\
               last_error_msg (start_round now draw st) = last_error_msg st /\
               round_no st <= round_no (start_round now draw st)
               <= round_no st + 1).
  { unfold start_round. destruct (target st); [repeat split; lia|].
    destruct (0 <? lives st); cbn [score last_error_msg round_no];
      repeat split; lia. }
  destruct (target (start_round now draw st)); [|exact Hs].
  destruct (fgt _ _); cbn [score last_error_msg round_no]; exact Hs.
Qed.

Lemma judge_resolves (max_reaction now : float) (action : option string)
      (st : state) :
  let st' := judge max_reaction now action st in
  round_no st' = round_no st /\
  last_error_msg st' = last_error_msg st /\
  ((score st' = score st /\ lives st' = lives st) \/
   (target st <> None /\
    ((score st' = score st + 1 /\ lives st' = lives st) \/
     (score st' = score st /\ lives st' = lives st - 1)))).
Proof.
  unfold judge. destruct action as [a|]; [|auto].
  destruct (target st) as [t|]; [|auto].
  destruct (fle _ _); [destruct (String.eqb a t)|];
    cbn [score lives round_no last_error_msg];
    (split; [reflexivity|]); (split; [reflexivity|]);
    right; (split; [discriminate|]); auto.
Qed.

(** X3. One pass of the loop settles at most one round: the score goes up
    by at most 1 and never down, the lives go down by at most 1 and never
    up, the two never change in the same pass, and [round_no] goes up by
    at most 1. *)
Theorem frame_settles_one_round (max_reaction now : float) (draw : nat)
        (drawn banner : bool) (queued : list InputEvent) (key : Z)
        (st : state) :
  let st' :=
    state_of (frame max_reaction now draw drawn banner queued key st) in
  score st <= score st' /\ lives st' <= lives st /\
  (score st' - score st) + (lives st - lives st') <= 1 /\
  round_no st <= round_no st' <= round_no st + 1.
Proof.
  cbv zeta.
  pose proof (tick_lives max_reaction now draw st) as Hl.
  pose proof (tick_unchanged_fields max_reaction now draw st) as Hf.
  cbv zeta in Hl, Hf. destruct Hf as (Hs & _ & Hr).
  unfold frame.
  set (st1 := tick max_reaction now draw st) in *.
  destruct drawn; [|cbn [state_of]; lia].
  destruct (lives st1 <=? 0).
  - destruct banner; [destruct (is_quit key)|]; cbn [state_of]; lia.
  - destruct (poll queued key (last_error_msg st1)) as [[quit action] err].
    destruct quit; cbn [state_of].
    + change (score (set_error err st1)) with (score st1).
      change (lives (set_error err st1)) with (lives st1).
      change (round_no (set_error err st1)) with (round_no st1). lia.
    + pose proof (judge_resolves max_reaction now action (set_error err st1))
        as Hj.
      cbv zeta in Hj. destruct Hj as (Hj1 & _ & Hj2).
      change (score (set_error err st1)) with (score st1) in *.
      change (lives (set_error err st1)) with (lives st1) in *.
      change (round_no (set_error err st1)) with (round_no st1) in *.
      change (target (set_error err st1)) with (target st1) in *.
      destruct Hj2 as [Hj2 | [Hn Hj2]]; [lia|].
      destruct Hl as [Hl | [_ Hl]]; [lia | contradiction].
Qed.

Lemma keyboard_quit (key : Z) (action : option string) :
  fst (keyboard key action) = is_quit key.
Proof.
  unfold keyboard, is_quit, NO_KEY, KEY_UP, KEY_DOWN, KEY_LEFT, KEY_RIGHT.
  repeat match goal with
         | |- context [?a =? ?b] => destruct (Z.eqb_spec a b); simpl; try lia
         end; reflexivity.
Qed.

(** How a pass ends: with an exception when a drawing call that is made
    raises, and otherwise with [break] exactly on a quit key. *)
Lemma frame_ways_out (max_reaction now : float) (draw : nat)
      (drawn banner : bool) (queued : list InputEvent) (key : Z) (st : state) :
  let c := frame max_reaction now draw drawn banner queued key st in
  (is_raised c = true -> drawn && banner = false) /\
  (is_exit c = true -> is_quit key = true) /\
  (drawn && banner = true -> is_raised c = false /\ is_exit c = is_quit key).
Proof.
  cbv zeta. unfold frame.
  destruct drawn; [|cbn; repeat split; discriminate].
  destruct (lives (tick max_reaction now draw st) <=? 0).
  - destruct banner; [destruct (is_quit key)|]; cbn; repeat split;
      discriminate || reflexivity.
  - unfold poll.
    destruct (drain queued None _) as [action err].
    pose proof (keyboard_quit key action) as Hk.
    destruct (keyboard key action) as [quit action']. simpl in Hk.
    rewrite <- Hk. destruct quit, banner; cbn; repeat split;
      discriminate || reflexivity.
Qed.

(** X4. The ways out of the loop.  A run of passes ends with [break] only
    if one of the keys read is q or Q, and with an exception only if a
    drawing call of one of the passes raises; when every drawing call
    returns, the run ends with [break] exactly when one of the keys read
    is q or Q, whatever the lives, the clock and the queue. *)
Theorem run_exits_on_quit_only (max_reaction : float)
        (inputs : list frame_input) (st : state) :
  (is_exit (run max_reaction inputs st) = true ->
   existsb (fun i => is_quit (in_key i)) inputs = true) /\
  (is_raised (run max_reaction inputs st) = true ->
   forallb drawing_ok inputs = false) /\
  (forallb drawing_ok inputs = true ->
   is_raised (run max_reaction inputs st) = false /\
   is_exit (run max_reaction inputs st)
   = existsb (fun i => is_quit (in_key i)) inputs).
Proof.
  revert st. induction inputs as [|i inputs IH]; intros st.
  - cbn. repeat split; discriminate || reflexivity.
  - cbn [run existsb forallb].
    pose proof (frame_ways_out max_reaction (in_now i) (in_draw i)
                  (in_drawn i) (in_banner i) (in_queued i) (in_key i) st)
      as (Hr & He & Hok).
    cbv zeta in Hr, He, Hok. unfold frame_on, drawing_ok at 1 3.
    destruct (frame max_reaction (in_now i) (in_draw i) (in_drawn i)
                    (in_banner i) (in_queued i) (in_key i) st)
      as [st'|st'|st']; cbn [is_exit is_raised] in *.
    + destruct (IH st') as (IH1 & IH2 & IH3).
      split; [|split].
      * intros H. rewrite (IH1 H). apply orb_true_r.
      * intros H. rewrite (IH2 H). apply andb_false_r.
      * intros H. apply andb_true_iff in H as [H1 H2].
        destruct (Hok H1) as [_ Hq]. rewrite <- Hq. cbn [orb].
        apply IH3. exact H2.
    + split; [|split].
      * intros _. rewrite (He eq_refl). reflexivity.
      * discriminate.
      * intros H. apply andb_true_iff in H as [H1 H2].
        destruct (Hok H1) as [_ Hq]. rewrite <- Hq. split; reflexivity.
    + split; [|split].
      * discriminate.
      * intros _. rewrite (Hr eq_refl). reflexivity.
      * intros H. apply andb_true_iff in H as [H1 H2].
        destruct (Hok H1) as [Hx _]. discriminate Hx.
Qed.

Lemma run_exits_on_quit_only_witness :
  is_raised (run default_window
               [idle_pass (flt 11);
                {| in_now := flt 11.2; in_draw := 0%nat; in_drawn := true;
                   in_banner := true; in_queued := []; in_key := 81 |};
                idle_pass (flt 30)]
               round1_up) = false /\
  is_exit (run default_window
             [idle_pass (flt 11);
              {| in_now := flt 11.2; in_draw := 0%nat; in_drawn := true;
                 in_banner := true; in_queued := []; in_key := 81 |};
              idle_pass (flt 30)]
             round1_up) = true.
Proof.
  exact (proj2 (proj2 (run_exits_on_quit_only default_window
           [idle_pass (flt 11);
            {| in_now := flt 11.2; in_draw := 0%nat; in_drawn := true;
               in_banner := true; in_queued := []; in_key := 81 |};
            idle_pass (flt 30)]
           round1_up)) eq_refl).
Defined.

(** X6. Game over is final along any run: from a state the loop reaches
    with no life left, whatever passes follow, the state at the end is the
    same state. *)
Theorem game_over_absorbing (max_reaction : float) (st : state)
        (inputs : list frame_input) :
  reachable max_reaction st -> lives st = 0 ->
  state_of (run max_reaction inputs st) = st.
Proof.
  intros Hr Hl.
  pose proof (reachable_lives_ok max_reaction st Hr) as Hok.
  induction inputs as [|i inputs IH]; [reflexivity|].
  cbn [run]. unfold frame_on.
  rewrite (frame_game_over max_reaction (in_now i) (in_draw i) (in_drawn i)
                           (in_banner i) (in_queued i) (in_key i) st Hok Hl).
  destruct (in_drawn i && in_banner i); [|reflexivity].
  destruct (is_quit (in_key i)); [reflexivity | exact IH].
Qed.

Lemma game_over_absorbing_witness :
  state_of (run default_window
              [idle_pass (flt 20);
               {| in_now := flt 21; in_draw := 2%nat; in_drawn := true;
                  in_banner := true; in_queued := [BTN "UP"];
                  in_key := KEY_UP |};
               idle_pass (flt 30)]
              game_over_state)
  = game_over_state.
Proof.
  apply (game_over_absorbing default_window game_over_state).
  - exact game_over_reachable.
  - reflexivity.
Defined.

(** *** Errors and the error line *)

Lemma drain_errors (queued : list InputEvent) :
  forall action error_msg,
    snd (drain queued action error_msg) = last (errors queued) error_msg.
Proof.
  induction queued as [|e queued IH]; intros action error_msg;
    [reflexivity|].
  destruct e as [p|p]; cbn [drain errors]; rewrite IH; [reflexivity|].
  destruct (errors queued) as [|m ms]; [reflexivity|].
  change (last (m :: ms) p = last (m :: ms) error_msg).
  apply last_cons_default.
Qed.

Lemma buttons_filter (queued : list InputEvent) :
  buttons (filter is_button queued) = buttons queued.
Proof.
  induction queued as [|e queued IH]; [reflexivity|].
  destruct e; cbn [filter is_button buttons]; rewrite IH; reflexivity.
Qed.

Lemma poll_parts (queued : list InputEvent) (key : Z) (error_msg : string) :
  poll queued key error_msg
  = (is_quit key, polled_action queued key,
     last (errors queued) error_msg).
Proof.
  unfold polled_action, poll.
  pose proof (drain_buttons queued None error_msg) as B1.
  pose proof (drain_errors queued None error_msg) as E1.
  pose proof (drain_buttons queued None "") as B2.
  destruct (drain queued None error_msg) as [a1 e1].
  destruct (drain queued None "") as [a2 e2].
  cbn [fst snd] in *. subst.
  pose proof (keyboard_quit key (last (map Some (buttons queued)) None)) as K.
  destruct (keyboard key (last (map Some (buttons queued)) None)) as [q a].
  cbn [fst snd] in *. subst. reflexivity.
Qed.

Lemma judge_set_error (max_reaction now : float) (action : option string)
      (error_msg : string) (st : state) :
  judge max_reaction now action (set_error error_msg st)
  = set_error error_msg (judge max_reaction now action st).
Proof.
  unfold judge. destruct action as [a|]; [|reflexivity].
  cbn [target prompt_time set_error].
  destruct (target st) as [t|]; [|reflexivity].
  destruct (fle _ _); [destruct (String.eqb a t)|]; reflexivity.
Qed.

(** X7. Device errors only reach the display.  A pass gives the same
    verdict (go on, [break] or exception) and the same game (score, lives,
    round, target, prompt time, information line) whether or not the
    [ERROR] events are in the queue; they can change the error line
    only. *)
Theorem errors_display_only (max_reaction now : float) (draw : nat)
        (drawn banner : bool) (queued : list InputEvent) (key : Z)
        (st : state) :
  let c := frame max_reaction now draw drawn banner queued key st in
  let c' := frame max_reaction now draw drawn banner
                  (filter is_button queued) key st in
  is_exit c = is_exit c' /\ is_raised c = is_raised c' /\
  same_game (state_of c) (state_of c').
Proof.
  cbv zeta. unfold frame, same_game.
  destruct drawn; [|repeat split].
  destruct (lives (tick max_reaction now draw st) <=? 0).
  - repeat split.
  - rewrite !poll_parts.
    assert (E : polled_action (filter is_button queued) key
                = polled_action queued key)
      by (rewrite !polled_action_eq, buttons_filter; reflexivity).
    rewrite E. destruct (is_quit key); cbn [is_exit is_raised state_of];
      (split; [reflexivity|]); (split; [reflexivity|]); [reflexivity|].
    rewrite !judge_set_error. reflexivity.
Qed.

(** X8. The error line keeps the newest error.  After a pass that is
    drawn and played with a life left, the error line is the payload of the
    last [ERROR] event of the queue, or what it was before if there is
    none; a game-over pass, and a pass whose drawing raises, leave it as it
    was. *)
Theorem error_line_keeps_newest (max_reaction now : float) (draw : nat)
        (drawn banner : bool) (queued : list InputEvent) (key : Z)
        (st : state) :
  last_error_msg
    (state_of (frame max_reaction now draw drawn banner queued key st))
  = if drawn && negb (lives (tick max_reaction now draw st) <=? 0)
    then last (errors queued) (last_error_msg st)
    else last_error_msg st.
Proof.
  pose proof (tick_unchanged_fields max_reaction now draw st) as Hf.
  cbv zeta in Hf. destruct Hf as (_ & He & _).
  unfold frame.
  destruct drawn; [|exact He].
  destruct (lives (tick max_reaction now draw st) <=? 0).
  - destruct banner; [destruct (is_quit key)|]; exact He.
  - rewrite poll_parts, He.
    destruct (is_quit key); cbn [state_of andb negb]; [reflexivity|].
    rewrite judge_set_error. reflexivity.
Qed.

Lemma tick_pending_not_expired (max_reaction now : float) (draw : nat)
      (st : state) (t : string) :
  target (tick max_reaction now draw st) = Some t ->
  fgt (fsub now (prompt_time (tick max_reaction now draw st))) max_reaction
  = false.
Proof.
  unfold tick, check_timeout.
  destruct (target (start_round now draw st)) as [t0|] eqn:Et.
  - destruct (fgt (fsub now (prompt_time (start_round now draw st)))
                  max_reaction) eqn:Eb.
    + cbn [target]. discriminate.
    + intros _. exact Eb.
  - rewrite Et. discriminate.
Qed.

(** X9. What a pass does with an action.  When the tick of the pass
    leaves a target [t] pending with a life left, the screen is drawn, no
    quit key is read and the poll yields the action [a], the pass goes on
    and the target is cleared.  If the elapsed time and the window can be
    compared (neither is NaN), the action is judged on its merits against
    [t]: the score goes up by 1 if [a] is [t], a life is lost if it is not;
    the judgment is never "too late", because the time-out check of the
    same pass, made at the same [now], has already taken the expired
    rounds.  If they cannot be compared, a life is lost whatever the
    action. *)
Theorem frame_judges_on_merits (max_reaction now : float) (draw : nat)
        (banner : bool) (queued : list InputEvent) (key : Z) (st : state)
        (a t : string) :
  let st1 := tick max_reaction now draw st in
  target st1 = Some t ->
  0 < lives st1 ->
  is_quit key = false ->
  polled_action queued key = Some a ->
  exists st',
    frame max_reaction now draw true banner queued key st = Next st' /\
    target st' = None /\ round_no st' = round_no st1 /\
    (SFcompare (fsub now (prompt_time st1)) max_reaction <> None ->
     judged_on_merits a t st1 st') /\
    (SFcompare (fsub now (prompt_time st1)) max_reaction = None ->
     lives st' = lives st1 - 1 /\ score st' = score st1).
Proof.
  cbv zeta. intros Ht Hl Hq Ha.
  pose proof (tick_pending_not_expired max_reaction now draw st t Ht) as Hw.
  unfold frame.
  set (st1 := tick max_reaction now draw st) in *.
  destruct (Z.leb_spec (lives st1) 0); [lia|].
  rewrite poll_parts, Hq, Ha, judge_set_error.
  eexists. split; [reflexivity|].
  destruct (fle (fsub now (prompt_time st1)) max_reaction) eqn:Ef.
  - destruct (judge_within max_reaction now a t st1 Ht Ef) as (A & B & C & D).
    split; [exact A|]. split; [exact B|]. split.
    + intros _. exact (conj A (conj B (conj C D))).
    + intros Hc. unfold fle, SFleb in Ef. rewrite Hc in Ef. discriminate.
  - destruct (judge_late max_reaction now a t st1 Ht Ef) as (A & B & C & D).
    split; [exact B|]. split; [exact D|]. split.
    + intros Hc. exfalso.
      pose proof (SFltb_false_leb _ _ Hc Hw) as Hle.
      unfold fle in Ef. congruence.
    + intros _. exact (conj A C).
Qed.

Lemma frame_judges_on_merits_witness :
  exists st',
    frame default_window (flt 11) 0 true true [BTN "DOWN"] KEY_UP round1_up
    = Next st' /\
    target st' = None /\
    round_no st' = round_no (tick default_window (flt 11) 0 round1_up) /\
    judged_on_merits "UP" "UP" (tick default_window (flt 11) 0 round1_up) st'.
Proof.
  destruct (frame_judges_on_merits default_window (flt 11) 0 true
              [BTN "DOWN"] KEY_UP round1_up "UP" "UP"
              ltac:(vm_compute; reflexivity) ltac:(vm_compute; reflexivity)
              eq_refl eq_refl)
    as (st' & A & B & C & D & _).
  exists st'. split; [exact A|]. split; [exact B|]. split; [exact C|].
  apply D. vm_compute. discriminate.
Defined.

(** * Further properties of the listener *)

Lemma stream_decompose (s : list byte) :
  exists lines partial,
    forallb no_newline lines = true /\ no_newline partial = true /\
    s = stream_of lines partial.
Proof.
  induction s as [|b s (lines & partial & Hl & Hp & E)].
  - exists [], []. repeat split.
  - destruct (Byte.eqb b newline) eqn:Eb.
    + apply Byte.byte_dec_bl in Eb. subst b.
      exists ([] :: lines), partial. repeat split; [exact Hl | exact Hp|].
      rewrite stream_of_cons, E. reflexivity.
    + destruct lines as [|l lines].
      * exists [], (b :: partial). repeat split.
        -- cbn [no_newline forallb]. rewrite Eb. exact Hp.
        -- rewrite E. reflexivity.
      * exists ((b :: l) :: lines), partial.
        cbn [forallb] in Hl. apply andb_true_iff in Hl as [Hl1 Hl2].
        repeat split; [|exact Hp|].
        -- cbn [forallb no_newline]. rewrite Eb.
           change (forallb (fun b0 => negb (Byte.eqb b0 newline)) l)
             with (no_newline l).
           rewrite Hl1, Hl2. reflexivity.
        -- rewrite E, !stream_of_cons. reflexivity.
Qed.

Lemma tokens_of_valid (f : list byte -> text) (lines : list (list byte)) :
  Forall (fun v => In v valid) (tokens_of f lines).
Proof.
  unfold tokens_of. apply Forall_forall. intros v Hv.
  apply in_flat_map in Hv as (l & _ & Hv).
  unfold lookup_valid in Hv.
  destruct (find _ valid) as [v'|] eqn:Ef; [|contradiction].
  destruct Hv as [<-|[]]. apply find_some in Ef. apply Ef.
Qed.

Lemma split_lines_events (uu : N -> text) (buf : list byte) :
  exists lines,
    forallb no_newline lines = true /\
    no_newline (snd (split_lines uu buf)) = true /\
    buf = stream_of lines (snd (split_lines uu buf)) /\
    fst (split_lines uu buf) = flat_map (line_puts uu) lines.
Proof.
  destruct (stream_decompose buf) as (lines & partial & Hl & Hp & E).
  exists lines. subst buf.
  rewrite (split_lines_stream uu lines partial Hl Hp). cbn [fst snd].
  repeat split; assumption || reflexivity.
Qed.

Lemma feed_chunks_exact (uu : N -> text) (chunks : list (list byte)) :
  exists lines,
    forallb no_newline lines = true /\
    no_newline (snd (feed_chunks uu chunks)) = true /\
    List.concat chunks = stream_of lines (snd (feed_chunks uu chunks)) /\
    fst (feed_chunks uu chunks) = map BTN (tokens_of (line_text uu) lines).
Proof.
  destruct (stream_decompose (List.concat chunks))
    as (lines & partial & Hl & Hp & E).
  destruct (reader_loop_stream uu chunks [] lines partial eq_refl Hl Hp E)
    as [A B].
  cbv zeta in A, B. exists lines. unfold feed_chunks. cbn [fst snd].
  rewrite A, B. repeat split; assumption.
Qed.

(** X10. No byte is lost and none is kept too long.  Whatever chunks are
    read, the bytes read so far are exactly some complete lines followed
    by the buffer; the buffer holds no newline; and the tokens put on the
    queue are the tokens of those lines, in order. *)
Theorem framer_exact (unicode_upper : N -> text) (chunks : list (list byte)) :
  exists lines,
    forallb no_newline lines = true /\
    no_newline (snd (feed_chunks unicode_upper chunks)) = true /\
    List.concat chunks
    = stream_of lines (snd (feed_chunks unicode_upper chunks)) /\
    fst (feed_chunks unicode_upper chunks)
    = map BTN (tokens_of (line_text unicode_upper) lines).
Proof. apply feed_chunks_exact. Qed.

(** X11. The way the port cuts the stream into chunks does not matter:
    two sequences of chunks with the same bytes give the same tokens and
    leave the same buffer. *)
Theorem chunking_is_irrelevant (unicode_upper : N -> text)
        (chunks chunks' : list (list byte)) :
  List.concat chunks = List.concat chunks' ->
  feed_chunks unicode_upper chunks = feed_chunks unicode_upper chunks'.
Proof.
  intros E.
  destruct (stream_decompose (List.concat chunks))
    as (lines & partial & Hl & Hp & E1).
  assert (E2 : List.concat chunks' = stream_of lines partial)
    by (rewrite <- E; exact E1).
  destruct (reader_loop_stream unicode_upper chunks [] lines partial
                               eq_refl Hl Hp E1) as [A B].
  destruct (reader_loop_stream unicode_upper chunks' [] lines partial
                               eq_refl Hl Hp E2) as [A' B'].
  cbv zeta in A, B, A', B'. unfold feed_chunks.
  rewrite A, B, A', B'. reflexivity.
Qed.

Lemma chunking_is_irrelevant_witness :
  feed_chunks caseless [bytes "do"; [x77; x6e; x0a; x75]; bytes "p"]
  = feed_chunks caseless [[x64]; []; [x6f; x77; x6e; x0a]; bytes "up"].
Proof.
  apply (chunking_is_irrelevant caseless
           [bytes "do"; [x77; x6e; x0a; x75]; bytes "p"]
           [[x64]; []; [x6f; x77; x6e; x0a]; bytes "up"]).
  reflexivity.
Defined.

Lemma reader_loop_app_data (uu : N -> text) (chunks : list (list byte))
      (rest : list read_result) :
  forall buf,
    reader_loop uu (map Data chunks ++ rest) buf
    = (fst (reader_loop uu (map Data chunks) buf)
       ++ fst (reader_loop uu rest
                           (snd (reader_loop uu (map Data chunks) buf))),
       snd (reader_loop uu rest
                        (snd (reader_loop uu (map Data chunks) buf)))).
Proof.
  induction chunks as [|d chunks IH]; intros buf.
  - cbn [map app reader_loop fst snd].
    destruct (reader_loop uu rest buf); reflexivity.
  - destruct d as [|b d]; cbn [map app reader_loop fst snd]; cbv zeta;
      rewrite IH; cbn [fst snd].
    + reflexivity.
    + rewrite <- app_assoc. reflexivity.
Qed.

(** X12. A read failure ends the listener.  When a read fails after some
    chunks were read, the events on the queue are those of the chunks,
    then exactly one [ERROR] event carrying the message of the failure;
    the port is closed; and nothing is read after the failure. *)
Theorem read_failure_stops (unicode_upper : N -> text) (port e : string)
        (chunks : list (list byte)) (later : list read_result) :
  let trace :=
    serial_reader unicode_upper true port Opened
                  (map Data chunks ++ ReadFailed e :: later) in
  published trace
  = fst (feed_chunks unicode_upper chunks)
    ++ [ERROR ("Serial read error: " ++ e)%string] /\
  last trace TryOpen = Close /\
  trace = serial_reader unicode_upper true port Opened
                        (map Data chunks ++ [ReadFailed e]).
Proof.
  cbv zeta. unfold serial_reader, feed_chunks. cbn [negb fst].
  rewrite !reader_loop_app_data. cbn [reader_loop fst snd].
  repeat split.
  - cbn [published]. rewrite !published_app. cbn [published].
    rewrite app_nil_r. reflexivity.
  - change (TryOpen :: ?l ++ [Close]) with ((TryOpen :: l) ++ [Close]).
    apply last_last.
Qed.

Lemma line_puts_port_free (uu : N -> text) (lines : list (list byte)) :
  Forall (fun a => a <> Close /\ a <> TryOpen)
         (flat_map (line_puts uu) lines).
Proof.
  apply Forall_forall. intros a Ha.
  apply in_flat_map in Ha as (l & _ & Ha). unfold line_puts in Ha.
  destruct (lookup_valid (line_text uu l)); [|contradiction].
  destruct Ha as [<-|[]]. split; discriminate.
Qed.

Lemma reader_loop_port_free (uu : N -> text) (reads : list read_result) :
  forall buf,
    Forall (fun a => a <> Close /\ a <> TryOpen)
           (fst (reader_loop uu reads buf)).
Proof.
  induction reads as [|r reads IH]; intros buf; [constructor|].
  destruct r as [d|e]; cbn [reader_loop].
  - destruct d as [|b d]; cbv zeta; cbn [fst].
    + repeat (constructor; [split; discriminate|]). apply IH.
    + constructor; [split; discriminate|].
      apply Forall_app. split; [|apply IH].
      destruct (split_lines_events uu (buf ++ b :: d)) as (ls & _ & _ & _ & E).
      rewrite E. apply line_puts_port_free.
  - cbn [fst]. repeat (constructor; [split; discriminate|]). constructor.
Qed.

(** X13. Once the port is open it is closed exactly once, at the very end,
    on every way out of the read loop (stop flag or read failure), and it
    is never opened again. *)
Theorem port_closed_exactly_once (unicode_upper : N -> text) (port : string)
        (reads : list read_result) :
  exists body,
    serial_reader unicode_upper true port Opened reads
    = TryOpen :: body ++ [Close] /\
    Forall (fun a => a <> Close /\ a <> TryOpen) body.
Proof.
  exists (fst (reader_loop unicode_upper reads [])).
  split; [reflexivity | apply reader_loop_port_free].
Qed.

Lemma reader_loop_events (uu : N -> text) (reads : list read_result) :
  forall buf, well_formed_events (published (fst (reader_loop uu reads buf))).
Proof.
  induction reads as [|r reads IH]; intros buf.
  - exists [], []. repeat split; [constructor | left; reflexivity].
  - destruct r as [d|e]; cbn [reader_loop].
    + destruct d as [|b d]; cbv zeta; cbn [fst published]; [apply IH|].
      destruct (split_lines_events uu (buf ++ b :: d))
        as (ls & _ & _ & _ & E).
      destruct (IH (snd (split_lines uu (buf ++ b :: d))))
        as (vs & tail & Ev & Hv & Ht).
      exists (tokens_of (line_text uu) ls ++ vs), tail.
      rewrite published_app, E, published_line_puts, Ev, map_app, app_assoc.
      repeat split; [|exact Ht].
      apply Forall_app. split; [apply tokens_of_valid | exact Hv].
    + exists [], [ERROR ("Serial read error: " ++ e)%string].
      repeat split; [constructor | right; eexists; reflexivity].
Qed.

Lemma serial_reader_events (uu : N -> text) (serial_present : bool)
      (port : string) (opened : open_result) (reads : list read_result) :
  well_formed_events
    (published (serial_reader uu serial_present port opened reads)).
Proof.
  unfold serial_reader. destruct serial_present; cbn [negb].
  - destruct opened as [|e].
    + cbn [published]. rewrite published_app. cbn [published].
      rewrite app_nil_r. apply reader_loop_events.
    + exists [], [ERROR ("Failed to open serial port " ++ port ++ ": " ++ e)%string].
      repeat split; [constructor | right; eexists; reflexivity].
  - exists [], []. repeat split; [constructor | left; reflexivity].
Qed.

(** X14. What the listener can put on the queue, whatever the port does:
    button events whose payloads are all in the vocabulary UP, DOWN, LEFT,
    RIGHT, followed by at most one error event, which is then the last
    event of all. *)
Theorem listener_events_well_formed (unicode_upper : N -> text)
        (serial_present : bool) (port : string) (opened : open_result)
        (reads : list read_result) :
  well_formed_events
    (published (serial_reader unicode_upper serial_present port opened reads)).
Proof. apply serial_reader_events. Qed.

Lemma key_direction_in (key : Z) (d : string) :
  key_direction key = Some d -> In d directions.
Proof.
  unfold key_direction, directions.
  repeat match goal with
         | |- context [?a =? ?b] => destruct (a =? b)
         end; intros [= <-]; simpl; auto.
Qed.

Lemma last_some_in {A : Type} (l : list A) (a : A) :
  last (map Some l) None = Some a -> In a l.
Proof.
  induction l as [|x l IH]; [discriminate|].
  destruct l as [|y l].
  - intros [= <-]. left. reflexivity.
  - intros H. right. apply IH. exact H.
Qed.

Lemma buttons_in (queued : list InputEvent) (a : string) :
  In a (buttons queued) -> In (BTN a) queued.
Proof.
  induction queued as [|e queued IH]; [contradiction|].
  destruct e as [p|p]; cbn [buttons].
  - intros [<-|H]; [left; reflexivity | right; apply IH, H].
  - intros H. right. apply IH, H.
Qed.

(** X15. Only directions are ever judged.  Whatever the listener put on
    the queue and whatever key is read, the action a poll yields, if any,
    is one of UP, DOWN, LEFT, RIGHT. *)
Theorem polled_action_is_a_direction (unicode_upper : N -> text)
        (serial_present : bool) (port : string) (opened : open_result)
        (reads : list read_result) (key : Z) (a : string) :
  polled_action
    (published (serial_reader unicode_upper serial_present port opened reads))
    key = Some a ->
  In a directions.
Proof.
  rewrite polled_action_eq.
  destruct (key_direction key) as [d|] eqn:Ek.
  - intros [= <-]. apply (key_direction_in key d Ek).
  - intros H. apply last_some_in, buttons_in in H.
    destruct (serial_reader_events unicode_upper serial_present port opened
                                   reads) as (vs & tail & E & Hv & Ht).
    rewrite E in H. apply in_app_or in H as [H|H].
    + apply in_map_iff in H as (v & [= <-] & Hin).
      rewrite Forall_forall in Hv. exact (Hv v Hin).
    + destruct Ht as [->|[m ->]]; [contradiction|].
      destruct H as [H|[]]. discriminate.
Qed.

Lemma polled_action_is_a_direction_witness :
  polled_action
    (published
       (serial_reader caseless true "/dev/ttyACM0" Opened
          [Data (bytes "up"); Data [x0a; x6c; x65; x66; x74; x0a];
           ReadFailed "gone"]))
    NO_KEY = Some "LEFT" /\
  In "LEFT" directions.
Proof.
  assert (H : polled_action
                (published
                   (serial_reader caseless true "/dev/ttyACM0" Opened
                      [Data (bytes "up");
                       Data [x0a; x6c; x65; x66; x74; x0a];
                       ReadFailed "gone"]))
                NO_KEY = Some "LEFT") by (vm_compute; reflexivity).
  split; [exact H|].
  exact (polled_action_is_a_direction caseless true "/dev/ttyACM0" Opened
           [Data (bytes "up"); Data [x0a; x6c; x65; x66; x74; x0a];
            ReadFailed "gone"]
           NO_KEY "LEFT" H).
Defined.

(** *** Letter case and surrounding whitespace *)

Lemma lstrip_spaces (ws l : list byte) :
  forallb is_space ws = true -> lstrip (ws ++ l) = lstrip l.
Proof.
  induction ws as [|b ws IH]; [reflexivity|].
  cbn [forallb app lstrip]. intros H.
  apply andb_true_iff in H as [Hb Hws]. rewrite Hb. apply IH, Hws.
Qed.

Lemma lstrip_head (b : byte) (l : list byte) :
  is_space b = false -> lstrip (b :: l) = b :: l.
Proof. intros H. cbn [lstrip]. rewrite H. reflexivity. Qed.

Lemma forallb_reverse {A : Type} (f : A -> bool) (l : list A) :
  forallb f (rev l) = forallb f l.
Proof.
  induction l as [|a l IH]; [reflexivity|].
  cbn [rev forallb]. rewrite forallb_app, IH. cbn [forallb].
  rewrite andb_true_r. apply andb_comm.
Qed.

Lemma strip_core (ws1 ws2 w : list byte) :
  forallb is_space ws1 = true -> forallb is_space ws2 = true ->
  w <> [] -> forallb (fun b => negb (is_space b)) w = true ->
  strip (ws1 ++ w ++ ws2) = w.
Proof.
  intros H1 H2 Hne Hw. unfold strip, rstrip.
  rewrite (lstrip_spaces ws1 _ H1).
  assert (Hhead : forall l k, l <> [] ->
                    forallb (fun b => negb (is_space b)) l = true ->
                    lstrip (l ++ k) = l ++ k).
  { intros l k Hl Hf. destruct l as [|b l]; [contradiction|].
    cbn [forallb] in Hf. apply andb_true_iff in Hf as [Hb _].
    apply negb_true_iff in Hb. apply (lstrip_head b (l ++ k) Hb). }
  rewrite (Hhead w ws2 Hne Hw), rev_app_distr.
  rewrite lstrip_spaces by (rewrite forallb_reverse; exact H2).
  rewrite <- (app_nil_r (rev w)), Hhead, app_nil_r, rev_involutive.
  - reflexivity.
  - intros E. apply Hne. rewrite <- (rev_involutive w), E. reflexivity.
  - rewrite forallb_reverse. exact Hw.
Qed.

Lemma is_space_code (b : byte) :
  is_space b = true -> (Byte.to_N b <= 32)%N.
Proof. destruct b; (discriminate || (intros _; vm_compute; discriminate)). Qed.

Lemma utf8_decode_ascii (on_error : text) (w : list byte) :
  Forall (fun b => (Byte.to_N b < 128)%N) w ->
  utf8_decode on_error w = map Byte.to_N w.
Proof.
  induction 1 as [|b w Hb _ IH]; [reflexivity|].
  apply N.ltb_lt in Hb. cbn [utf8_decode map].
  change 0x80%N with 128%N. rewrite Hb, IH. reflexivity.
Qed.

Lemma upper_ascii (uu : N -> text) (t : text) :
  Forall (fun c => (c < 128)%N) t -> upper uu t = map ascii_up t.
Proof.
  induction 1 as [|c t Hc _ IH]; [reflexivity|].
  unfold upper in *. cbn [flat_map map]. rewrite IH.
  unfold upper_char, ascii_up. apply N.ltb_lt in Hc. rewrite Hc.
  destruct ((97 <=? c) && (c <=? 122))%N; reflexivity.
Qed.

Lemma valid_letters (v : string) :
  In v valid ->
  codepoints v <> [] /\
  Forall (fun c => (65 <= c <= 90)%N) (codepoints v) /\
  lookup_valid (codepoints v) = Some v.
Proof.
  intros [<-|[<-|[<-|[<-|[]]]]]; (split; [discriminate|]);
    (split; [|reflexivity]);
    repeat (constructor; [vm_compute; split; discriminate|]); constructor.
Qed.

Lemma ascii_up_letter (c : N) :
  (65 <= ascii_up c <= 90)%N -> (33 <= c < 128)%N.
Proof.
  unfold ascii_up.
  destruct (N.leb_spec 97 c); destruct (N.leb_spec c 122); cbn [andb]; lia.
Qed.

Lemma spells_letters (w : list byte) (v : string) :
  In v valid -> spells w v ->
  w <> [] /\ Forall (fun b => (33 <= Byte.to_N b < 128)%N) w.
Proof.
  intros Hv Hs. destruct (valid_letters v Hv) as (Hne & Hl & _).
  unfold spells in Hs. rewrite <- Hs in Hne, Hl. split.
  - intros ->. apply Hne. reflexivity.
  - clear Hs Hne. induction w as [|b w IH]; [constructor|].
    cbn [map] in Hl. inversion Hl as [|x l Hx Hrest]; subst.
    constructor; [apply ascii_up_letter, Hx | apply IH, Hrest].
Qed.

(** X16. Letter case and surrounding whitespace do not matter.  A line
    that spells a word of the vocabulary in any mix of upper and lower
    case, with any run of whitespace bytes (space, tab, carriage return,
    ...) before and after it, puts exactly one button event, carrying
    that word in upper case. *)
Theorem token_any_case_any_padding (unicode_upper : N -> text)
        (ws1 w ws2 : list byte) (v : string) :
  In v valid -> spells w v ->
  forallb is_space ws1 = true -> forallb is_space ws2 = true ->
  line_puts unicode_upper (ws1 ++ w ++ ws2) = [Put (BTN v)].
Proof.
  intros Hv Hs H1 H2.
  destruct (spells_letters w v Hv Hs) as [Hne Hw].
  destruct (valid_letters v Hv) as (_ & _ & Hlook).
  assert (Hns : forallb (fun b => negb (is_space b)) w = true).
  { apply forallb_forall. intros b Hb. rewrite Forall_forall in Hw.
    specialize (Hw b Hb). destruct (is_space b) eqn:Eb; [|reflexivity].
    apply is_space_code in Eb. lia. }
  unfold line_puts, line_text, decode_ignore.
  rewrite (strip_core ws1 ws2 w H1 H2 Hne Hns).
  rewrite utf8_decode_ascii
    by (eapply Forall_impl; [|exact Hw]; cbv beta; intros; lia).
  rewrite upper_ascii.
  - unfold spells in Hs. rewrite Hs, Hlook. reflexivity.
  - apply Forall_map. eapply Forall_impl; [|exact Hw]. cbv beta. intros; lia.
Qed.

Lemma token_any_case_any_padding_witness :
  line_puts caseless (bytes "  " ++ bytes "Left" ++ [x09; x0d])
  = [Put (BTN "LEFT")].
Proof.
  apply (token_any_case_any_padding caseless (bytes "  ") (bytes "Left")
                                    [x09; x0d] "LEFT").
  - right. right. left. reflexivity.
  - reflexivity.
  - reflexivity.
  - reflexivity.
Defined.
